(** * ReduceArrayDim: the "reduce-array-dim" pass of clang_delta

    A shallow embedding of [clang_delta/ReduceArrayDim.cpp].  The pass picks
    the n-th multi-dimensional array variable of a translation unit, removes
    the last bracket pair of its declaration, merges the two trailing extents
    and linearises the two trailing indices of every subscript chain on it.

    The abstract syntax tree, the source buffer and the text rewriter belong
    to the host compiler; they are modelled here as plain data:
    a buffer is a list of characters addressed by offsets, the rewriter is
    the log of the edits asked of it, and [render] applies such a log. *)

From Stdlib Require Import ZArith String Ascii Bool Lia Arith List.
From Stdlib Require Import Numbers.DecimalString.
Import ListNotations.

Open Scope Z_scope.

(** ** Machine integers *)

Module MachineInt.

(** [unsigned] and [int] are 32 bits wide. *)
Definition UINT_RANGE : Z := 2 ^ 32.
Definition INT_MIN : Z := - 2 ^ 31.
Definition INT_MAX : Z := 2 ^ 31 - 1.

(** Conversion to [unsigned]: reduction modulo 2^32. *)
Definition to_unsigned (z : Z) : Z := z mod UINT_RANGE.

(** Conversion to [int]: the two's complement reading of the low 32 bits. *)
Definition to_int (z : Z) : Z := (z + 2 ^ 31) mod UINT_RANGE - 2 ^ 31.

Definition fits_int (z : Z) : bool := (INT_MIN <=? z) && (z <=? INT_MAX).

End MachineInt.

(** ** Text *)

Definition Text := list ascii.

Definition txt (s : string) : Text := list_ascii_of_string s.

(** [operator<<] of a stream on an integer: its decimal digits, with a
    leading minus sign for a negative value. *)
Definition decimal (z : Z) : Text :=
  txt (NilZero.string_of_int (Z.to_int z)).

(** ** Assertions

    Modelled from the spec: the macro [TransAssert] is declared outside the
    file at hand; an assertion-like invariant violation is non-recoverable
    and aborts the pass.  A computation either yields a value or stops at
    the assertion whose message it carries. *)

Inductive Res (A : Type) : Type :=
| Ok (a : A)
| AssertFail (msg : string).

Arguments Ok {A} a.
Arguments AssertFail {A} msg.

Definition bind {A B : Type} (m : Res A) (f : A -> Res B) : Res B :=
  match m with
  | Ok a => f a
  | AssertFail msg => AssertFail msg
  end.

Notation "x <- m ;; k" := (bind m (fun x => k))
  (at level 61, m at next level, right associativity).

Definition TransAssert (cond : bool) (msg : string) : Res unit :=
  if cond then Ok tt else AssertFail msg.

(** ** Types of the host compiler

    Only the shape the pass looks at is kept: whether a type is one of the
    four array kinds, and whether it is scalar, structure or union. *)

Inductive Ty : Type :=
| BuiltinTy                                   (* arithmetic and enumeration types *)
| PointerTy (pointee : Ty)
| StructureTy
| UnionTy
| OtherTy                                     (* void, functions, classes, ... *)
| ConstantArrayTy (elem : Ty) (size : Z)
| IncompleteArrayTy (elem : Ty)
| VariableArrayTy (elem : Ty)
| DependentSizedArrayTy (elem : Ty).

(** [dyn_cast<ArrayType>] succeeds on the four array kinds. *)
Definition isArrayType (t : Ty) : bool :=
  match t with
  | ConstantArrayTy _ _ | IncompleteArrayTy _
  | VariableArrayTy _ | DependentSizedArrayTy _ => true
  | _ => false
  end.

Definition isScalarType (t : Ty) : bool :=
  match t with BuiltinTy | PointerTy _ => true | _ => false end.

Definition isStructureType (t : Ty) : bool :=
  match t with StructureTy => true | _ => false end.

Definition isUnionType (t : Ty) : bool :=
  match t with UnionTy => true | _ => false end.

Definition isConstantArrayType (t : Ty) : bool :=
  match t with ConstantArrayTy _ _ => true | _ => false end.

Definition isIncompleteArrayType (t : Ty) : bool :=
  match t with IncompleteArrayTy _ => true | _ => false end.

Definition isVariableArrayType (t : Ty) : bool :=
  match t with VariableArrayTy _ => true | _ => false end.

Definition isDependentSizedArrayType (t : Ty) : bool :=
  match t with DependentSizedArrayTy _ => true | _ => false end.

(** Modelled from the spec: [getArrayDimensionAndTypes] lives in the
    [Transformation] base class; it peels one array layer at a time until a
    non-array element type is reached and yields the layers, outer to inner,
    with their count. *)
Fixpoint arrayLayers (t : Ty) : list Ty :=
  match t with
  | ConstantArrayTy e _ => t :: arrayLayers e
  | IncompleteArrayTy e => t :: arrayLayers e
  | VariableArrayTy e => t :: arrayLayers e
  | DependentSizedArrayTy e => t :: arrayLayers e
  | _ => []
  end.

Definition getArrayDimensionAndTypes (ArrayTy : Ty) : nat * list Ty :=
  (length (arrayLayers ArrayTy), arrayLayers ArrayTy).

(** Modelled from the spec: [getArrayDimension], same base class, the count
    alone. *)
Definition getArrayDimension (ArrayTy : Ty) : nat :=
  length (arrayLayers ArrayTy).

(** Modelled from the spec: [getConstArraySize], same base class, yields the
    extent of a fixed dimension; the callers store it in an [unsigned]. *)
Definition getConstArraySize (CstArrayTy : Ty) : Z :=
  match CstArrayTy with
  | ConstantArrayTy _ n => MachineInt.to_unsigned n
  | _ => 0
  end.

(** ** Declarations and expressions *)

(** A syntactic occurrence of a variable declaration.  [getCanonicalDecl]
    maps every redeclaration of an entity to one key; [getLocation] is the
    offset of the declared name in the buffer. *)
Record VarDecl : Type := mkVarDecl {
  getCanonicalDecl : nat;
  getType : Ty;
  getLocation : nat
}.

Inductive ValueDecl : Type :=
| ValueVar (VD : VarDecl)
| ValueOther.                                 (* functions, enumerators, ... *)

(** First and last character of an expression in the buffer. *)
Definition SourceRange : Type := (nat * nat)%type.

Inductive CastKind : Type :=
| CK_IntegralCast (bits : Z) (signed : bool)
| CK_LValueToRValue
| CK_ArrayToPointerDecay
| CK_NoOp.

Inductive Expr : Type :=
| IntegerLiteral (R : SourceRange) (value : Z)
| CharacterLiteral (R : SourceRange) (value : Z)
| ParenExpr (R : SourceRange) (sub : Expr)
| CastExpr (R : SourceRange) (kind : CastKind) (sub : Expr)
| DeclRefExpr (R : SourceRange) (D : ValueDecl)
| ArraySubscriptExpr (R : SourceRange) (T : Ty) (base idx : Expr)
| UnaryOther (R : SourceRange) (sub : Expr)
| BinaryOther (R : SourceRange) (lhs rhs : Expr).

Definition getSourceRange (E : Expr) : SourceRange :=
  match E with
  | IntegerLiteral R _ | CharacterLiteral R _ | ParenExpr R _
  | CastExpr R _ _ | DeclRefExpr R _ | ArraySubscriptExpr R _ _ _
  | UnaryOther R _ | BinaryOther R _ _ => R
  end.

Fixpoint IgnoreParenCasts (E : Expr) : Expr :=
  match E with
  | ParenExpr _ s => IgnoreParenCasts s
  | CastExpr _ _ s => IgnoreParenCasts s
  | _ => E
  end.

(** Modelled from the spec: constant-expression evaluation of a subscript is
    the host's [EvaluateAsInt]; on the forms built from literals,
    parentheses and casts it yields the literal's value, converted by each
    integral cast on the way out. *)
Definition castValue (k : CastKind) (v : Z) : Z :=
  match k with
  | CK_IntegralCast bits true =>
      (v + 2 ^ (bits - 1)) mod 2 ^ bits - 2 ^ (bits - 1)
  | CK_IntegralCast bits false => v mod 2 ^ bits
  | _ => v
  end.

Fixpoint EvaluateAsInt (E : Expr) : option Z :=
  match E with
  | IntegerLiteral _ v => Some v
  | CharacterLiteral _ v => Some v
  | ParenExpr _ s => EvaluateAsInt s
  | CastExpr _ k s => option_map (castValue k) (EvaluateAsInt s)
  | _ => None
  end.

(** ** The text rewriter

    The host rewriter takes edits against offsets of the original buffer.
    It is modelled by the log of the edits it was asked for, oldest first;
    a range names its first and its last character. *)

Inductive Edit : Type :=
| RemoveText (first last : nat)
| ReplaceText (first last : nat) (NewStr : Text).

(** Rendering keeps one slot per character of the original buffer, holding
    what currently stands for it.  The edits of one run target disjoint
    spans, for which this agrees with the offset mapping of the rewriter. *)
Definition Slots : Type := list Text.

Definition rangeSize (first last : nat) : option nat :=
  if (S last <? first)%nat then None else Some (S last - first)%nat.

Definition overwrite (first len : nat) (NewStr : Text) (sl : Slots) : Slots :=
  if (length sl <? first + len)%nat then sl
  else match len with
       | O => firstn first sl ++
              match skipn first sl with
              | c :: r => (NewStr ++ c) :: r
              | [] => []
              end
       | S n => firstn first sl ++ (NewStr :: repeat [] n) ++
                skipn (first + len) sl
       end.

Definition applyEdit (sl : Slots) (ed : Edit) : Slots :=
  match ed with
  | RemoveText f l =>
      match rangeSize f l with
      | Some len => overwrite f len [] sl
      | None => sl
      end
  | ReplaceText f l s =>
      match rangeSize f l with
      | Some len => overwrite f len s sl
      | None => sl
      end
  end.

Definition single (t : Text) : Slots := map (fun c => [c]) t.

Definition render (src : Text) (log : list Edit) : Text :=
  concat (fold_left applyEdit log (single src)).

(** ** State of the pass *)

Inductive TransErrorKind : Type :=
| TransSuccess
| TransInternalError
| TransMaxInstanceError.

(** [ValidInstanceNum] counts declarations and is kept unbounded;
    [VisitedVarDecls] is the set of canonical declarations seen, [ArraySz]
    an [unsigned]. *)
Record Pass : Type := mkPass {
  ValidInstanceNum : Z;
  VisitedVarDecls : list nat;
  TheVarDecl : option nat;            (* [None] is the null pointer *)
  ArraySz : Z;
  TheRewriter : list Edit;
  TransError : TransErrorKind
}.

Definition setArraySz (sz : Z) (st : Pass) : Pass :=
  mkPass (ValidInstanceNum st) (VisitedVarDecls st) (TheVarDecl st) sz
         (TheRewriter st) (TransError st).

Definition setTheRewriter (rw : list Edit) (st : Pass) : Pass :=
  mkPass (ValidInstanceNum st) (VisitedVarDecls st) (TheVarDecl st)
         (ArraySz st) rw (TransError st).

Definition setTransError (err : TransErrorKind) (st : Pass) : Pass :=
  mkPass (ValidInstanceNum st) (VisitedVarDecls st) (TheVarDecl st)
         (ArraySz st) (TheRewriter st) err.

Definition emit (ed : Edit) (st : Pass) : Pass :=
  setTheRewriter (TheRewriter st ++ [ed]) st.

(** The members are declared in the header of the class, with the
    constructor.  The instance counter starts at zero and no target is
    selected; what [ArraySz] holds before the first declaration rewrite is
    left as a parameter. *)
Definition initialPass (ArraySz0 : Z) : Pass :=
  mkPass 0 [] None ArraySz0 [] TransSuccess.

(** A translation unit, as the recursive visitor walks it: variable
    declarations and the expressions outside of any other expression, in
    source order. *)
Inductive Node : Type :=
| DeclNode (VD : VarDecl)
| ExprNode (E : Expr).

(** ** Helpers of the rewriting utilities *)

Fixpoint scanForward (Symbol : ascii) (buf : Text) : option nat :=
  match buf with
  | [] => None
  | c :: r =>
      if Ascii.eqb c Symbol then Some O
      else option_map S (scanForward Symbol r)
  end.

(** Modelled from the spec: [getLocationUntil] belongs to the rewriting
    utilities; it locates the next occurrence of a bracket character from a
    location on.  A bracket that cannot be located is a fatal internal
    error. *)
Definition getLocationUntil (src : Text) (Loc : nat) (Symbol : ascii)
  : Res nat :=
  match scanForward Symbol (skipn Loc src) with
  | Some off => Ok (Loc + off)%nat
  | None => AssertFail "bracket not found"
  end.

(** The same search towards the start of the buffer, from a location
    downwards. *)
Definition getLocationBefore (src : Text) (Loc : nat) (Symbol : ascii)
  : Res nat :=
  match scanForward Symbol (rev (firstn (S Loc) src)) with
  | Some off => Ok (Loc - off)%nat
  | None => AssertFail "bracket not found"
  end.

(** Modelled from the spec: [removeArraySubscriptExpr] deletes the subscript
    operator of an index expression with its bracket text entirely: from the
    opening bracket before the expression to the closing one after it. *)
Definition removeArraySubscriptExpr (src : Text) (E : Expr) (st : Pass)
  : Res Pass :=
  let '(b, e) := getSourceRange E in
  StartLoc <- getLocationBefore src b "[" ;;
  EndLoc <- getLocationUntil src (S e) "]" ;;
  Ok (emit (RemoveText StartLoc EndLoc) st).

(** Modelled from the spec: [replaceExpr] replaces the text of an
    expression. *)
Definition replaceExpr (E : Expr) (NewStr : Text) (st : Pass) : Pass :=
  let '(b, e) := getSourceRange E in
  emit (ReplaceText b e NewStr) st.

(** Modelled from the spec: [getExprString] yields the text of an expression
    in the original buffer. *)
Definition getExprString (src : Text) (E : Expr) : Text :=
  let '(b, e) := getSourceRange E in
  firstn (S e - b) (skipn b src).

(** Modelled from the spec: [getBaseExprAndIdxExprs] belongs to the base
    class; it walks a subscript chain from its outermost node inwards,
    collecting the index expressions (so the trailing index comes first),
    and yields the base the chain ends in, parentheses and casts dropped. *)
Fixpoint walkChain (BaseE : Expr) : Expr * list Expr :=
  match BaseE with
  | ParenExpr _ s => walkChain s
  | CastExpr _ _ s => walkChain s
  | ArraySubscriptExpr _ _ b i =>
      let '(BE, Idx) := walkChain b in (BE, i :: Idx)
  | _ => (BaseE, [])
  end.

Definition getBaseExprAndIdxExprs (ASE : Expr) : Expr * list Expr :=
  match ASE with
  | ArraySubscriptExpr _ _ b i =>
      let '(BE, Idx) := walkChain b in (BE, i :: Idx)
  | _ => (ASE, [])
  end.

(** ** The pass *)

Section ReduceArrayDim.

(** The main buffer, the instance number asked for, the query-only switch
    of the driver and whether the host reported an error diagnostic. *)
Variable SrcManager : Text.
Variable TransformationCounter : Z.
Variable QueryInstanceOnly : bool.
Variable hasErrorOccurred : bool.

Definition addOneVar (VD : VarDecl) (st : Pass) : Pass :=
  let ArrayTy := getType VD in
  if negb (isArrayType ArrayTy) then st
  else
    let ArrayDim := getArrayDimension ArrayTy in
    if (ArrayDim <=? 1)%nat then st
    else if isDependentSizedArrayType ArrayTy || isVariableArrayType ArrayTy
    then st
    else
      let CanonicalVD := getCanonicalDecl VD in
      if existsb (Nat.eqb CanonicalVD) (VisitedVarDecls st) then st
      else
        let Num := ValidInstanceNum st + 1 in
        mkPass Num (CanonicalVD :: VisitedVarDecls st)
               (if TransformationCounter =? Num then Some CanonicalVD
                else TheVarDecl st)
               (ArraySz st) (TheRewriter st) (TransError st).

(** [HandleTopLevelDecl], over all declaration groups: the collection
    visitor reaches every variable declaration. *)
Fixpoint HandleTopLevelDecls (TU : list Node) (st : Pass) : Pass :=
  match TU with
  | [] => st
  | DeclNode VD :: rest => HandleTopLevelDecls rest (addOneVar VD st)
  | ExprNode _ :: rest => HandleTopLevelDecls rest st
  end.

Fixpoint getBracketLocPairs (StartLoc : nat) (Dim : nat)
  : Res (list (nat * nat)) :=
  match Dim with
  | O => Ok []
  | S d =>
      BPStartLoc <- getLocationUntil SrcManager StartLoc "[" ;;
      BPEndLoc <- getLocationUntil SrcManager BPStartLoc "]" ;;
      BPVec <- getBracketLocPairs BPEndLoc d ;;
      Ok ((BPStartLoc, BPEndLoc) :: BPVec)
  end.

(** The reverse iterators are read as positions from the end; past the
    assertion on the number of bracket pairs both vectors hold at least two
    elements, so the defaults of [nth] are never taken. *)
Definition rewriteOneVarDecl (VD : VarDecl) (st : Pass) : Res Pass :=
  let ArrayTy := getType VD in
  _ <- TransAssert (isArrayType ArrayTy) "Invalid ArrayType!" ;;
  let '(Dim, TyVec) := getArrayDimensionAndTypes ArrayTy in
  BPVector <- getBracketLocPairs (getLocation VD) Dim ;;
  _ <- TransAssert (1 <? length BPVector)%nat "Invalid Bracket Pairs!" ;;
  let CstArrayTy := nth 0 (rev TyVec) OtherTy in
  _ <- TransAssert (isConstantArrayType CstArrayTy)
                   "Non ConstantArrayType!" ;;
  let LastSz := getConstArraySize CstArrayTy in
  let SecArrayTy := nth 1 (rev TyVec) OtherTy in
  let LastBracketPair := nth 0 (rev BPVector) (O, O) in
  let st1 :=
    emit (RemoveText (fst LastBracketPair) (snd LastBracketPair)) st in
  let SecBracketPair := nth 1 (rev BPVector) (O, O) in
  if negb (isIncompleteArrayType SecArrayTy) then
    _ <- TransAssert (isConstantArrayType SecArrayTy)
                     "Non ConstantArrayType!" ;;
    let st2 := setArraySz (getConstArraySize SecArrayTy) st1 in
    let TmpSS := decimal (MachineInt.to_unsigned (LastSz * ArraySz st2)) in
    let StartLoc := (fst SecBracketPair + 1)%nat in
    let EndLoc := (snd SecBracketPair - 1)%nat in
    Ok (emit (ReplaceText StartLoc EndLoc TmpSS) st2)
  else Ok st1.

Definition isIntegerExpr (Exp : Expr) : bool :=
  match IgnoreParenCasts Exp with
  | IntegerLiteral _ _ => true
  | CharacterLiteral _ _ => true
  | _ => false
  end.

(** The evaluated value is printed and read back into an [int]; the read
    fails on a value an [int] cannot hold. *)
Definition getIndexAsInteger (E : Expr) : Res Z :=
  match EvaluateAsInt E with
  | None => AssertFail "Failed to Evaluate index!"
  | Some Result =>
      if MachineInt.fits_int Result then Ok Result
      else AssertFail "Non-integer value!"
  end.

(** The caller hands over at least two index expressions. *)
Definition rewriteSubscriptExpr (IdxExprs : list Expr) (st : Pass)
  : Res Pass :=
  match IdxExprs with
  | LastE :: SecE :: _ =>
      st1 <- removeArraySubscriptExpr SrcManager LastE st ;;
      if isIntegerExpr LastE && isIntegerExpr SecE then
        LastIdx <- getIndexAsInteger LastE ;;
        SecIdx <- getIndexAsInteger SecE ;;
        let NewIdx := MachineInt.to_int (SecIdx * ArraySz st1 + LastIdx) in
        Ok (replaceExpr SecE (decimal NewIdx) st1)
      else
        let LastStr := getExprString SrcManager LastE in
        let SecStr := getExprString SrcManager SecE in
        let TmpSS := txt "(" ++ SecStr ++ txt ")*" ++
                     decimal (ArraySz st1) ++ txt "+" ++ LastStr in
        Ok (replaceExpr SecE TmpSS st1)
  | _ => Ok st
  end.

Definition handleOneArraySubscriptExpr (ASE : Expr) (st : Pass)
  : Res Pass :=
  match ASE with
  | ArraySubscriptExpr _ ASETy _ _ =>
      if negb (isScalarType ASETy) && negb (isStructureType ASETy) &&
         negb (isUnionType ASETy)
      then Ok st
      else
        let '(BaseE, IdxExprs) := getBaseExprAndIdxExprs ASE in
        if (length IdxExprs <=? 1)%nat then Ok st
        else
          match BaseE with
          | DeclRefExpr _ (ValueVar VD) =>
              if match TheVarDecl st with
                 | Some T => Nat.eqb (getCanonicalDecl VD) T
                 | None => false
                 end
              then rewriteSubscriptExpr IdxExprs st
              else Ok st
          | _ => Ok st
          end
  | _ => Ok st
  end.

(** The rewrite visitor on a declaration. *)
Definition VisitVarDecl (VD : VarDecl) (st : Pass) : Res Pass :=
  match TheVarDecl st with
  | Some T =>
      if Nat.eqb (getCanonicalDecl VD) T then rewriteOneVarDecl VD st
      else Ok st
  | None => Ok st
  end.

(** The rewrite visitor inside an expression: every node is visited
    before its children. *)
Fixpoint TraverseStmt (E : Expr) (st : Pass) : Res Pass :=
  match E with
  | ArraySubscriptExpr _ _ b i =>
      st1 <- handleOneArraySubscriptExpr E st ;;
      st2 <- TraverseStmt b st1 ;;
      TraverseStmt i st2
  | ParenExpr _ s => TraverseStmt s st
  | CastExpr _ _ s => TraverseStmt s st
  | UnaryOther _ s => TraverseStmt s st
  | BinaryOther _ l r => st1 <- TraverseStmt l st ;; TraverseStmt r st1
  | _ => Ok st
  end.

Fixpoint TraverseDecl (TU : list Node) (st : Pass) : Res Pass :=
  match TU with
  | [] => Ok st
  | DeclNode VD :: rest => st1 <- VisitVarDecl VD st ;; TraverseDecl rest st1
  | ExprNode E :: rest => st1 <- TraverseStmt E st ;; TraverseDecl rest st1
  end.

(** The two visitors exist once the pass is initialized, so the assertions
    on them hold; the one on the target is kept. *)
Definition HandleTranslationUnit (TU : list Node) (st : Pass) : Res Pass :=
  if QueryInstanceOnly then Ok st
  else if ValidInstanceNum st <? TransformationCounter
  then Ok (setTransError TransMaxInstanceError st)
  else
    _ <- TransAssert (match TheVarDecl st with Some _ => true | None => false end)
                     "NULL TheVarDecl!" ;;
    st1 <- TraverseDecl TU st ;;
    if hasErrorOccurred then Ok (setTransError TransInternalError st1)
    else Ok st1.

(** One invocation: the collection during parsing, then the rewrite. *)
Definition runPass (ArraySz0 : Z) (TU : list Node) : Res Pass :=
  HandleTranslationUnit TU (HandleTopLevelDecls TU (initialPass ArraySz0)).

End ReduceArrayDim.

(** ** Notions used by the statements *)

(** What [addOneVar] admits: an array type of at least two layers whose
    outermost layer is neither dependently sized nor variably sized. *)
Definition admitted (VD : VarDecl) : bool :=
  let ArrayTy := getType VD in
  isArrayType ArrayTy && (1 <? getArrayDimension ArrayTy)%nat &&
  negb (isDependentSizedArrayType ArrayTy || isVariableArrayType ArrayTy).

(** Eligibility in the words of the specification: array type, at least
    two dimensions, and no dimension anywhere in the chain of layers that
    is dependently sized or sized at run time. *)
Definition unsupportedLayer (t : Ty) : bool :=
  isDependentSizedArrayType t || isVariableArrayType t.

Definition eligible (VD : VarDecl) : bool :=
  let ArrayTy := getType VD in
  isArrayType ArrayTy && (2 <=? getArrayDimension ArrayTy)%nat &&
  forallb (fun l => negb (unsupportedLayer l)) (arrayLayers ArrayTy).

(** The candidates of a translation unit: the canonical keys of the
    admitted declarations, in first-visit order, each once. *)
Fixpoint candidatesFrom (seen : list nat) (TU : list Node) : list nat :=
  match TU with
  | [] => []
  | DeclNode VD :: rest =>
      let C := getCanonicalDecl VD in
      if admitted VD && negb (existsb (Nat.eqb C) seen)
      then C :: candidatesFrom (C :: seen) rest
      else candidatesFrom seen rest
  | ExprNode _ :: rest => candidatesFrom seen rest
  end.

Definition candidates (TU : list Node) : list nat := candidatesFrom [] TU.

(** The preconditions of a chain rewrite in the words of the specification:
    the result type after full indexing is scalar, structure or union; the
    chain has at least two index expressions; the base is a direct name
    reference resolving to the canonical declaration of the target. *)
Definition refersToTarget (BaseE : Expr) (st : Pass) : bool :=
  match BaseE, TheVarDecl st with
  | DeclRefExpr _ (ValueVar VD), Some T => Nat.eqb (getCanonicalDecl VD) T
  | _, _ => false
  end.

Definition qualifies (ASE : Expr) (st : Pass) : bool :=
  match ASE with
  | ArraySubscriptExpr _ T _ _ =>
      (isScalarType T || isStructureType T || isUnionType T) &&
      (2 <=? length (snd (getBaseExprAndIdxExprs ASE)))%nat &&
      refersToTarget (fst (getBaseExprAndIdxExprs ASE)) st
  | _ => false
  end.

(** The text of a declarator's brackets: each pair is preceded by a
    stretch of text, the first of which starts at the declared name. *)
Definition bracketText (br : Text * Text) : Text :=
  fst br ++ txt "[" ++ snd br ++ txt "]".

Definition declText (brs : list (Text * Text)) : Text :=
  concat (map bracketText brs).

Definition noChar (c : ascii) (t : Text) : Prop := ~ In c t.

Definition plainBracket (br : Text * Text) : Prop :=
  noChar "[" (fst br) /\ noChar "]" (snd br).

(** Where the brackets of such a text stand, the text starting at offset
    [off]: the offsets of each opening and closing bracket. *)
Fixpoint bracketLocs (off : nat) (brs : list (Text * Text))
  : list (nat * nat) :=
  match brs with
  | [] => []
  | br :: rest =>
      let opening := (off + length (fst br))%nat in
      let closing := (opening + 1 + length (snd br))%nat in
      (opening, closing) :: bracketLocs (closing + 1) rest
  end.

(** ** Reading a synthesized index

    Modelled from the spec: the standard precedence and evaluation rules of
    the language, for the fragment the synthesized text is made of:
    identifiers, decimal literals, parentheses and the left-associative
    operators [*], [+] and [<<], of which [*] binds tightest and [<<]
    loosest.  A text reads as a tree when the tree follows the grammar and
    prints to the text. *)

Inductive CExpr : Type :=
| CNum (n : Z)
| CVar (name : Text)
| CParen (e : CExpr)
| CMul (lhs rhs : CExpr)
| CAdd (lhs rhs : CExpr)
| CShl (lhs rhs : CExpr).

(** Binding strength of the outermost operator: shift 0, additive 1,
    multiplicative 2, primary 3. *)
Definition level (e : CExpr) : nat :=
  match e with
  | CShl _ _ => 0
  | CAdd _ _ => 1
  | CMul _ _ => 2
  | _ => 3
  end.

Definition isLetter (c : ascii) : bool :=
  let k := nat_of_ascii c in
  ((97 <=? k) && (k <=? 122) || (65 <=? k) && (k <=? 90) || (k =? 95))%nat.

(** The productions: a left operand at least as tight as its operator, a
    right operand strictly tighter. *)
Fixpoint grammatical (e : CExpr) : bool :=
  match e with
  | CNum n => 0 <=? n
  | CVar x => negb (Nat.eqb (length x) 0) && forallb isLetter x
  | CParen a => grammatical a
  | CMul a b =>
      grammatical a && grammatical b && (2 <=? level a)%nat && (3 <=? level b)%nat
  | CAdd a b =>
      grammatical a && grammatical b && (1 <=? level a)%nat && (2 <=? level b)%nat
  | CShl a b =>
      grammatical a && grammatical b && (1 <=? level b)%nat
  end.

Fixpoint print (e : CExpr) : Text :=
  match e with
  | CNum n => decimal n
  | CVar x => x
  | CParen a => txt "(" ++ print a ++ txt ")"
  | CMul a b => print a ++ txt "*" ++ print b
  | CAdd a b => print a ++ txt "+" ++ print b
  | CShl a b => print a ++ txt "<<" ++ print b
  end.

Fixpoint value (env : Text -> Z) (e : CExpr) : Z :=
  match e with
  | CNum n => n
  | CVar x => env x
  | CParen a => value env a
  | CMul a b => value env a * value env b
  | CAdd a b => value env a + value env b
  | CShl a b => Z.shiftl (value env a) (value env b)
  end.

Definition readsAs (t : Text) (e : CExpr) : Prop :=
  grammatical e = true /\ print e = t.

(** ** Programs of the scenarios *)

Module Scenario.

Definition decay (R : SourceRange) (E : Expr) : Expr :=
  CastExpr R CK_ArrayToPointerDecay E.

Definition int4 : Ty := ConstantArrayTy BuiltinTy 4.
Definition int34 : Ty := ConstantArrayTy int4 3.
Definition int234 : Ty := ConstantArrayTy int34 2.

(** [int a[2][3][4];] with the access [a[1][2][3]]. *)
Definition src234 : Text :=
  txt "int a[2][3][4]; void foo(void) { a[1][2][3]; }".
Definition a234 : VarDecl := mkVarDecl 0 int234 4.
Definition chain234 (T0 T1 T2 : Ty) (vd : VarDecl) (i1 i2 : Expr) : Expr :=
  ArraySubscriptExpr (33, 42)%nat T2
    (decay (33, 39)%nat
       (ArraySubscriptExpr (33, 39)%nat T1
          (decay (33, 36)%nat
             (ArraySubscriptExpr (33, 36)%nat T0
                (decay (33, 33)%nat (DeclRefExpr (33, 33)%nat (ValueVar vd)))
                (IntegerLiteral (35, 35)%nat 1)))
          i1))
    i2.
Definition use234 : Expr :=
  chain234 int34 int4 BuiltinTy a234
           (IntegerLiteral (38, 38)%nat 2) (IntegerLiteral (41, 41)%nat 3).
Definition TU234 : list Node := [DeclNode a234; ExprNode use234].

(** [int a[][3];] with the access [a[5][2]]. *)
Definition int3 : Ty := ConstantArrayTy BuiltinTy 3.
Definition src_3 : Text := txt "int a[][3]; void foo(void) { a[5][2]; }".
Definition a_3 : VarDecl := mkVarDecl 0 (IncompleteArrayTy int3) 4.
Definition use_3 : Expr :=
  ArraySubscriptExpr (29, 35)%nat BuiltinTy
    (decay (29, 32)%nat
       (ArraySubscriptExpr (29, 32)%nat int3
          (decay (29, 29)%nat (DeclRefExpr (29, 29)%nat (ValueVar a_3)))
          (IntegerLiteral (31, 31)%nat 5)))
    (IntegerLiteral (34, 34)%nat 2).
Definition TU_3 : list Node := [DeclNode a_3; ExprNode use_3].

(** The same declaration with another trailing extent. *)
Definition src_7 : Text := txt "int a[][7]; void foo(void) { a[5][2]; }".
Definition a_7 : VarDecl :=
  mkVarDecl 0 (IncompleteArrayTy (ConstantArrayTy BuiltinTy 7)) 4.
Definition use_7 : Expr :=
  ArraySubscriptExpr (29, 35)%nat BuiltinTy
    (decay (29, 32)%nat
       (ArraySubscriptExpr (29, 32)%nat (ConstantArrayTy BuiltinTy 7)
          (decay (29, 29)%nat (DeclRefExpr (29, 29)%nat (ValueVar a_7)))
          (IntegerLiteral (31, 31)%nat 5)))
    (IntegerLiteral (34, 34)%nat 2).
Definition TU_7 : list Node := [DeclNode a_7; ExprNode use_7].

(** [int a[2][3][4];] with the access [a[1][i][j]] on two variables. *)
Definition srcVar : Text :=
  txt "int a[2][3][4]; void foo(void) { a[1][i][j]; }".
Definition varI : VarDecl := mkVarDecl 1 BuiltinTy 0.
Definition varJ : VarDecl := mkVarDecl 2 BuiltinTy 0.
Definition rvalue (R : SourceRange) (vd : VarDecl) : Expr :=
  CastExpr R CK_LValueToRValue (DeclRefExpr R (ValueVar vd)).


(** [int *a[2][3];] with the access [a[1][2][3]]: the third index
    goes through the pointer the array holds. *)
Definition ptr3 : Ty := ConstantArrayTy (PointerTy BuiltinTy) 3.
Definition ptr23 : Ty := ConstantArrayTy ptr3 2.
Definition srcPtr : Text :=
  txt "int *a[2][3]; void foo(void) { a[1][2][3]; }".
Definition aPtr : VarDecl := mkVarDecl 0 ptr23 5.
Definition innerPtr : Expr :=
  ArraySubscriptExpr (31, 37)%nat (PointerTy BuiltinTy)
    (decay (31, 34)%nat
       (ArraySubscriptExpr (31, 34)%nat ptr3
          (decay (31, 31)%nat (DeclRefExpr (31, 31)%nat (ValueVar aPtr)))
          (IntegerLiteral (33, 33)%nat 1)))
    (IntegerLiteral (36, 36)%nat 2).
Definition usePtr : Expr :=
  ArraySubscriptExpr (31, 40)%nat BuiltinTy
    (CastExpr (31, 37)%nat CK_LValueToRValue innerPtr)
    (IntegerLiteral (39, 39)%nat 3).
Definition TUPtr : list Node := [DeclNode aPtr; ExprNode usePtr].

(** [int a[2][n];] inside a function: the inner dimension is sized at
    run time, the outer one is fixed. *)
Definition aVla : VarDecl :=
  mkVarDecl 0 (ConstantArrayTy (VariableArrayTy BuiltinTy) 2) 4.
Definition srcVla : Text := txt "int a[2][n];".

(** [char a[65536][65536];]: an object of 2^32 bytes. *)
Definition srcBig : Text := txt "char a[65536][65536];".
Definition aBig : VarDecl :=
  mkVarDecl 0 (ConstantArrayTy (ConstantArrayTy BuiltinTy 65536) 65536) 5.

(** [int a[2][3][4];] with the access [a[1][(2)][(char)3]]. *)
Definition srcCast : Text :=
  txt "int a[2][3][4]; void foo(void) { a[1][(2)][(char)3]; }".
Definition useCast : Expr :=
  ArraySubscriptExpr (33, 50)%nat BuiltinTy
    (decay (33, 41)%nat
       (ArraySubscriptExpr (33, 41)%nat int4
          (decay (33, 36)%nat
             (ArraySubscriptExpr (33, 36)%nat int34
                (decay (33, 33)%nat (DeclRefExpr (33, 33)%nat (ValueVar a234)))
                (IntegerLiteral (35, 35)%nat 1)))
          (ParenExpr (38, 40)%nat (IntegerLiteral (39, 39)%nat 2))))
    (CastExpr (43, 49)%nat (CK_IntegralCast 32 true)
       (CastExpr (43, 49)%nat (CK_IntegralCast 8 true)
          (IntegerLiteral (49, 49)%nat 3))).
Definition TUCast : list Node := [DeclNode a234; ExprNode useCast].

End Scenario.

(** An index expression stands between brackets in the buffer: an opening
    bracket at or before its first character, a closing one after its
    last. *)
Definition bracketed (src : Text) (E : Expr) : Prop :=
  In "["%char (firstn (S (fst (getSourceRange E))) src) /\
  In "]"%char (skipn (S (snd (getSourceRange E))) src).

(** ** Notions used by the further properties *)

(** What the collector keeps true of its own state: the counter is the
    size of the visited set, no canonical declaration is in the set twice,
    and a selected target is one of the visited declarations. *)
Definition collectorInvariant (st : Pass) : Prop :=
  ValidInstanceNum st = Z.of_nat (length (VisitedVarDecls st)) /\
  NoDup (VisitedVarDecls st) /\
  (forall T, TheVarDecl st = Some T -> In T (VisitedVarDecls st)).

(** Two states that differ by edits appended to the log and, possibly,
    by the cached extent. *)
Definition extendsLog (st st' : Pass) : Prop :=
  ValidInstanceNum st' = ValidInstanceNum st /\
  VisitedVarDecls st' = VisitedVarDecls st /\
  TheVarDecl st' = TheVarDecl st /\
  TransError st' = TransError st /\
  exists edits, TheRewriter st' = TheRewriter st ++ edits.

(** Some subscript node of an expression qualifies for the rewrite. *)
Fixpoint anyQualifies (E : Expr) (st : Pass) : bool :=
  match E with
  | ArraySubscriptExpr _ _ b i =>
      qualifies E st || anyQualifies b st || anyQualifies i st
  | ParenExpr _ s => anyQualifies s st
  | CastExpr _ _ s => anyQualifies s st
  | UnaryOther _ s => anyQualifies s st
  | BinaryOther _ l r => anyQualifies l st || anyQualifies r st
  | _ => false
  end.

(** A node of the translation unit the rewrite visitor acts on: a
    declaration of the target, or an expression with a qualifying chain. *)
Definition touchesTarget (st : Pass) (N : Node) : bool :=
  match N with
  | DeclNode VD =>
      match TheVarDecl st with
      | Some T => Nat.eqb (getCanonicalDecl VD) T
      | None => false
      end
  | ExprNode E => anyQualifies E st
  end.

(** [p] is the first offset from [lo] on at which the buffer holds [c]. *)
Definition firstFrom (src : Text) (c : ascii) (lo p : nat) : Prop :=
  (lo <= p)%nat /\ nth_error src p = Some c /\
  forall j, (lo <= j < p)%nat -> nth_error src j <> Some c.

(** A sequence of bracket pairs as a left-to-right scan from [lo] finds
    them: each opening bracket is the first one from where the scan stands,
    its closing bracket the first one after it, and the scan goes on from
    the closing bracket. *)
Fixpoint bracketScan (src : Text) (lo : nat) (BPVec : list (nat * nat))
  : Prop :=
  match BPVec with
  | [] => True
  | pq :: rest =>
      firstFrom src "[" lo (fst pq) /\
      firstFrom src "]" (fst pq) (snd pq) /\
      bracketScan src (snd pq) rest
  end.

(** Bracket pairs that follow one another without overlap: each opens at
    or after [lo], closes after it opens, and the next one opens after it
    closes. *)
Fixpoint separated (lo : nat) (BPVec : list (nat * nat)) : Prop :=
  match BPVec with
  | [] => True
  | pq :: rest =>
      (lo <= fst pq < snd pq)%nat /\ separated (S (snd pq)) rest
  end.

(** * Properties *)

(** ** The error monad *)

Lemma bind_Ok {A B : Type} (m : Res A) (f : A -> Res B) (b : B) :
  bind m f = Ok b -> exists a, m = Ok a /\ f a = Ok b.
Proof.
  destruct m as [a | msg]; simpl; intros H.
  - exists a; split; [reflexivity | exact H].
  - discriminate H.
Qed.

Ltac inv_bind H :=
  let a := fresh "a" in
  let Ha := fresh "Ha" in
  apply bind_Ok in H; destruct H as [a [Ha H]].

(** ** Collection *)

Section Collection.

Variable n : Z.

Lemma addOneVar_cases (VD : VarDecl) (st : Pass) :
  addOneVar n VD st =
  if admitted VD &&
     negb (existsb (Nat.eqb (getCanonicalDecl VD)) (VisitedVarDecls st))
  then mkPass (ValidInstanceNum st + 1)
              (getCanonicalDecl VD :: VisitedVarDecls st)
              (if n =? ValidInstanceNum st + 1
               then Some (getCanonicalDecl VD) else TheVarDecl st)
              (ArraySz st) (TheRewriter st) (TransError st)
  else st.
Proof.
  unfold addOneVar, admitted.
  destruct (isArrayType (getType VD)); simpl; [ | reflexivity].
  destruct (getArrayDimension (getType VD)) as [ | [ | d]]; simpl;
    try reflexivity.
  destruct (isDependentSizedArrayType (getType VD) ||
            isVariableArrayType (getType VD)); simpl; [reflexivity | ].
  destruct (existsb _ _); reflexivity.
Qed.

(** The collection touches neither the rewriter, nor the cached extent,
    nor the error state; it counts the candidates. *)
Lemma collection_frame (TU : list Node) : forall st,
  let st' := HandleTopLevelDecls n TU st in
  ValidInstanceNum st' =
    ValidInstanceNum st +
    Z.of_nat (length (candidatesFrom (VisitedVarDecls st) TU)) /\
  TheRewriter st' = TheRewriter st /\
  ArraySz st' = ArraySz st /\
  TransError st' = TransError st.
Proof.
  induction TU as [ | [VD | E] rest IH]; intros st; cbn zeta.
  - simpl. repeat split. lia.
  - simpl HandleTopLevelDecls. simpl candidatesFrom.
    specialize (IH (addOneVar n VD st)). cbn zeta in IH.
    rewrite addOneVar_cases in IH |- *.
    destruct (admitted VD &&
              negb (existsb (Nat.eqb (getCanonicalDecl VD))
                            (VisitedVarDecls st))).
    + simpl in IH. destruct IH as (H1 & H2 & H3 & H4).
      repeat split; try assumption.
      rewrite H1. simpl length. lia.
    + exact IH.
  - simpl. apply IH.
Qed.

(** A target is selected only by the declaration that brings the counter
    to the requested number. *)
Lemma collection_no_target (TU : list Node) : forall st,
  n <= ValidInstanceNum st ->
  TheVarDecl (HandleTopLevelDecls n TU st) = TheVarDecl st.
Proof.
  induction TU as [ | [VD | E] rest IH]; intros st Hle; simpl.
  - reflexivity.
  - rewrite IH.
    + rewrite addOneVar_cases.
      destruct (admitted VD && _); [ | reflexivity].
      simpl. destruct (Z.eqb_spec n (ValidInstanceNum st + 1)); [lia | reflexivity].
    + rewrite addOneVar_cases.
      destruct (admitted VD && _); simpl; lia.
  - apply IH. exact Hle.
Qed.

(** The n-th candidate in first-visit order becomes the target. *)
Lemma collection_target (TU : list Node) : forall st,
  ValidInstanceNum st < n ->
  n <= ValidInstanceNum st +
       Z.of_nat (length (candidatesFrom (VisitedVarDecls st) TU)) ->
  TheVarDecl (HandleTopLevelDecls n TU st) =
  nth_error (candidatesFrom (VisitedVarDecls st) TU)
            (Z.to_nat (n - ValidInstanceNum st - 1)).
Proof.
  induction TU as [ | [VD | E] rest IH]; intros st Hlt Hle.
  - simpl in Hle. lia.
  - simpl HandleTopLevelDecls. simpl candidatesFrom in *.
    rewrite addOneVar_cases.
    destruct (admitted VD && _) eqn:Hadm.
    + simpl length in Hle.
      destruct (Z.eqb_spec n (ValidInstanceNum st + 1)) as [Heq | Hne].
      * rewrite collection_no_target by (simpl; lia).
        simpl. replace (n - ValidInstanceNum st - 1) with 0 by lia.
        reflexivity.
      * rewrite IH by (simpl; lia).
        simpl ValidInstanceNum. simpl VisitedVarDecls.
        replace (Z.to_nat (n - ValidInstanceNum st - 1))
          with (S (Z.to_nat (n - (ValidInstanceNum st + 1) - 1))) by lia.
        reflexivity.
    + apply IH; assumption.
  - simpl. apply IH; assumption.
Qed.

End Collection.

Lemma collected_count (n c : Z) (TU : list Node) :
  ValidInstanceNum (HandleTopLevelDecls n TU (initialPass c)) =
  Z.of_nat (length (candidates TU)).
Proof.
  destruct (collection_frame n TU (initialPass c)) as (H & _).
  rewrite H. reflexivity.
Qed.

(** What the specification calls eligible, the collector admits. *)
Lemma eligible_admitted (VD : VarDecl) :
  eligible VD = true -> admitted VD = true.
Proof.
  unfold eligible, admitted, unsupportedLayer.
  intros H. apply andb_prop in H. destruct H as [H Hall].
  apply andb_prop in H. destruct H as [Harr Hdim].
  rewrite Harr. simpl.
  destruct (getType VD); simpl in *; try discriminate;
    unfold getArrayDimension in *; simpl in *;
    rewrite ?andb_true_r; try assumption;
    try (destruct (arrayLayers _); simpl in *; [discriminate | reflexivity]).
Qed.

(** ** Rendering *)

Lemma concat_single (t : Text) : concat (single t) = t.
Proof.
  induction t as [ | c t IH]; simpl; [reflexivity | now rewrite IH].
Qed.

Lemma render_nil (src : Text) : render src [] = src.
Proof. unfold render. simpl. apply concat_single. Qed.

(** ** Locating brackets *)

Lemma scanForward_In (c : ascii) (t : Text) :
  In c t -> exists k, scanForward c t = Some k.
Proof.
  induction t as [ | x t IH]; simpl; intros H; [contradiction | ].
  destruct (Ascii.eqb_spec x c) as [Heq | Hne].
  - exists O. reflexivity.
  - destruct H as [H | H]; [congruence | ].
    destruct (IH H) as [k Hk]. rewrite Hk. exists (S k). reflexivity.
Qed.

Lemma scanForward_skip (c : ascii) (t1 t2 : Text) :
  noChar c t1 -> scanForward c (t1 ++ c :: t2) = Some (length t1).
Proof.
  unfold noChar. induction t1 as [ | x t1 IH]; simpl; intros H.
  - rewrite Ascii.eqb_refl. reflexivity.
  - destruct (Ascii.eqb_spec x c) as [Heq | Hne].
    + exfalso. apply H. left. exact Heq.
    + rewrite IH; [reflexivity | ]. intros Hin. apply H. right. exact Hin.
Qed.

Lemma skipn_length_app {A : Type} (l1 l2 : list A) :
  skipn (length l1) (l1 ++ l2) = l2.
Proof. induction l1; simpl; auto. Qed.

Lemma firstn_length_app {A : Type} (l1 l2 : list A) :
  firstn (length l1) (l1 ++ l2) = l1.
Proof. induction l1; simpl; [ | f_equal]; auto. Qed.

Lemma getLocationUntil_at (pre mid post : Text) (c : ascii) :
  noChar c mid ->
  getLocationUntil (pre ++ mid ++ c :: post) (length pre) c =
  Ok (length pre + length mid)%nat.
Proof.
  intros H. unfold getLocationUntil.
  rewrite skipn_length_app, scanForward_skip by exact H. reflexivity.
Qed.

Lemma removeArraySubscriptExpr_ok (src : Text) (E : Expr) (st : Pass) :
  bracketed src E ->
  exists p q,
    removeArraySubscriptExpr src E st = Ok (emit (RemoveText p q) st).
Proof.
  unfold bracketed, removeArraySubscriptExpr.
  destruct (getSourceRange E) as [b e]. simpl. intros [Hb He].
  unfold getLocationBefore, getLocationUntil.
  destruct (scanForward_In "[" (rev (firstn (S b) src))) as [k Hk].
  { apply in_rev. rewrite rev_involutive. exact Hb. }
  destruct (scanForward_In "]" (skipn (S e) src) He) as [k' Hk'].
  rewrite Hk. cbn [bind]. rewrite Hk'. cbn [bind]. eauto.
Qed.

(** ** Subscript rewriting *)

Lemma isIntegerExpr_evaluates (E : Expr) :
  isIntegerExpr E = true -> exists v, EvaluateAsInt E = Some v.
Proof.
  unfold isIntegerExpr.
  induction E; simpl; intros H; try discriminate; eauto.
  destruct (IHE H) as [v Hv]. rewrite Hv. simpl. eauto.
Qed.

Lemma rewriteSubscriptExpr_folds
      (src : Text) (LastE SecE : Expr) (rest : list Expr) (st : Pass)
      (l s : Z) :
  isIntegerExpr LastE = true -> isIntegerExpr SecE = true ->
  EvaluateAsInt LastE = Some l -> EvaluateAsInt SecE = Some s ->
  MachineInt.fits_int l = true -> MachineInt.fits_int s = true ->
  bracketed src LastE ->
  exists p q,
    rewriteSubscriptExpr src (LastE :: SecE :: rest) st =
    Ok (replaceExpr SecE
          (decimal (MachineInt.to_int (s * ArraySz st + l)))
          (emit (RemoveText p q) st)).
Proof.
  intros HL HS El Es Fl Fs Hbr.
  destruct (removeArraySubscriptExpr_ok src LastE st Hbr) as (p & q & Hrm).
  exists p, q. unfold rewriteSubscriptExpr. rewrite Hrm. simpl bind.
  rewrite HL, HS. simpl andb. cbv iota.
  unfold getIndexAsInteger. rewrite El, Es, Fl, Fs. reflexivity.
Qed.




(** ** Declaration rewriting: the cached extent *)


(** ** Declaration rewriting: the brackets in the text *)

Lemma length_bracketText (br : Text * Text) :
  length (bracketText br) = (length (fst br) + length (snd br) + 2)%nat.
Proof.
  unfold bracketText. rewrite !length_app. simpl. lia.
Qed.

Lemma declText_cons (br : Text * Text) (brs : list (Text * Text)) :
  declText (br :: brs) = bracketText br ++ declText brs.
Proof. reflexivity. Qed.

Lemma declText_app (l1 l2 : list (Text * Text)) :
  declText (l1 ++ l2) = declText l1 ++ declText l2.
Proof. unfold declText. rewrite map_app. apply concat_app. Qed.

Lemma bracketLocs_app (l1 l2 : list (Text * Text)) : forall off,
  bracketLocs off (l1 ++ l2) =
  bracketLocs off l1 ++ bracketLocs (off + length (declText l1)) l2.
Proof.
  induction l1 as [ | br l1 IH]; intros off; simpl.
  - f_equal. unfold declText. simpl. lia.
  - f_equal. rewrite IH. f_equal. f_equal.
    rewrite declText_cons, length_app, length_bracketText. lia.
Qed.

Lemma getBracketLocPairs_shape (brs : list (Text * Text)) :
  forall pre junk post,
    Forall plainBracket brs -> noChar "[" junk ->
    getBracketLocPairs (pre ++ junk ++ declText brs ++ post)
                       (length pre) (length brs) =
    Ok (bracketLocs (length pre + length junk) brs).
Proof.
  induction brs as [ | [seg c] rest IH]; intros pre junk post Hall Hjunk.
  - reflexivity.
  - inversion Hall as [ | x l [Hseg Hc] Hrest]; subst. simpl in Hseg, Hc.
    cbn [getBracketLocPairs length].
    rewrite declText_cons. unfold bracketText. cbn [fst snd].
    change (txt "[") with ["["%char]. change (txt "]") with ["]"%char].
    set (src := pre ++ junk ++ ((seg ++ ["["%char] ++ c ++ ["]"%char]) ++
                                declText rest) ++ post).
    assert (E1 : src = pre ++ (junk ++ seg) ++
                       "["%char :: (c ++ "]"%char :: declText rest ++ post)).
    { unfold src. repeat (rewrite <- app_assoc; simpl). reflexivity. }
    assert (E2 : src = (pre ++ junk ++ seg) ++ ("["%char :: c) ++
                       "]"%char :: (declText rest ++ post)).
    { unfold src. repeat (rewrite <- app_assoc; simpl). reflexivity. }
    assert (E3 : src = (pre ++ junk ++ seg ++ "["%char :: c) ++
                       ["]"%char] ++ declText rest ++ post).
    { unfold src. repeat (rewrite <- app_assoc; simpl). reflexivity. }
    rewrite E1 at 1.
    rewrite getLocationUntil_at.
    2:{ unfold noChar in *. intros Hin. apply in_app_or in Hin. tauto. }
    cbn [bind].
    replace (length pre + length (junk ++ seg))%nat
      with (length (pre ++ junk ++ seg)) by (rewrite !length_app; lia).
    rewrite E2 at 1.
    rewrite getLocationUntil_at.
    2:{ unfold noChar in *. intros [Hin | Hin]; [discriminate | tauto]. }
    cbn [bind].
    replace (length (pre ++ junk ++ seg) + length ("["%char :: c))%nat
      with (length (pre ++ junk ++ seg ++ "["%char :: c))
      by (rewrite !length_app; simpl; lia).
    rewrite E3.
    rewrite IH; [ | exact Hrest | ].
    2:{ unfold noChar. intros [Hin | []]. discriminate. }
    cbn [bind bracketLocs fst snd]. f_equal. f_equal.
    + f_equal; rewrite !length_app; simpl; lia.
    + f_equal. rewrite !length_app. simpl. lia.
Qed.

Lemma getBracketLocPairs_length (src : Text) (Dim : nat) :
  forall StartLoc BPVec,
    getBracketLocPairs src StartLoc Dim = Ok BPVec -> length BPVec = Dim.
Proof.
  induction Dim as [ | d IH]; intros StartLoc BPVec H; simpl in H.
  - injection H as <-. reflexivity.
  - inv_bind H. inv_bind H. inv_bind H. injection H as <-.
    simpl. f_equal. eapply IH. exact Ha1.
Qed.

Lemma length_single (t : Text) : length (single t) = length t.
Proof. apply length_map. Qed.

Lemma single_app (t1 t2 : Text) : single (t1 ++ t2) = single t1 ++ single t2.
Proof. apply map_app. Qed.

Lemma concat_blank (k : nat) : concat (repeat (@nil ascii) k) = [].
Proof. induction k; simpl; auto. Qed.

Lemma overwrite_at_S (A B C : Slots) (s : Text) (f k : nat) :
  length A = f -> length B = S k ->
  overwrite f (S k) s (A ++ B ++ C) = A ++ (s :: repeat [] k) ++ C.
Proof.
  intros HA HB. unfold overwrite.
  replace (length (A ++ B ++ C) <? f + S k)%nat with false.
  2:{ symmetry. apply Nat.ltb_ge. rewrite !length_app. lia. }
  subst f. rewrite firstn_length_app. f_equal. f_equal.
  rewrite app_assoc.
  replace (length A + S k)%nat with (length (A ++ B))
    by (rewrite length_app; lia).
  apply skipn_length_app.
Qed.

Lemma overwrite_at_0 (A C : Slots) (c s : Text) (f : nat) :
  length A = f ->
  overwrite f 0 s (A ++ c :: C) = A ++ (s ++ c) :: C.
Proof.
  intros HA. unfold overwrite.
  replace (length (A ++ c :: C) <? f + 0)%nat with false.
  2:{ symmetry. apply Nat.ltb_ge. rewrite !length_app. lia. }
  subst f. rewrite firstn_length_app, skipn_length_app. reflexivity.
Qed.

Lemma length_bracketLocs (brs : list (Text * Text)) : forall off,
  length (bracketLocs off brs) = length brs.
Proof. induction brs; intros off; simpl; auto. Qed.

Lemma arrayLayers_isArrayType (t : Ty) :
  arrayLayers t <> [] -> isArrayType t = true.
Proof. destruct t; simpl; intros H; congruence. Qed.

(** The last bracket pair, once removed, leaves empty slots. *)
Lemma removeLast_slots (L c2 post : Text) (f l : nat) :
  f = length L -> l = (f + 1 + length c2)%nat ->
  applyEdit (single (L ++ "["%char :: c2 ++ "]"%char :: post))
            (RemoveText f l) =
  single L ++ repeat [] (S (S (length c2))) ++ single post.
Proof.
  intros Hf Hl. unfold applyEdit, rangeSize.
  replace (S l <? f)%nat with false by (symmetry; apply Nat.ltb_ge; lia).
  replace (S l - f)%nat with (S (S (length c2))) by lia.
  replace (L ++ "["%char :: c2 ++ "]"%char :: post)
    with (L ++ ("["%char :: c2 ++ ["]"%char]) ++ post)
    by (simpl; rewrite <- app_assoc; reflexivity).
  rewrite !single_app.
  rewrite overwrite_at_S.
  - reflexivity.
  - rewrite length_single. congruence.
  - rewrite length_single. simpl. rewrite length_app. simpl. lia.
Qed.

(** Replacing what stands between the second-to-last brackets. *)
Lemma replaceSec_concat (H c1 NewStr : Text) (R : Slots) (f l : nat) :
  f = (length H + 1)%nat -> l = (length H + 1 + length c1 - 1)%nat ->
  concat (applyEdit (single (H ++ ["["%char]) ++ single c1 ++
                     single ["]"%char] ++ R)
                    (ReplaceText f l NewStr)) =
  H ++ "["%char :: NewStr ++ "]"%char :: concat R.
Proof.
  intros Hf Hl. unfold applyEdit, rangeSize.
  replace (S l <? f)%nat with false by (symmetry; apply Nat.ltb_ge; lia).
  destruct c1 as [ | x c1].
  - simpl in Hl. replace (S l - f)%nat with O by lia.
    simpl (single [] ++ _). simpl (single ["]"%char] ++ R).
    rewrite overwrite_at_0.
    2:{ rewrite length_single, length_app. simpl. lia. }
    rewrite concat_app, concat_single. simpl.
    repeat (rewrite <- app_assoc; simpl). reflexivity.
  - simpl in Hl. replace (S l - f)%nat with (S (length c1)) by lia.
    rewrite overwrite_at_S.
    2:{ rewrite length_single, length_app. simpl. lia. }
    2:{ rewrite length_single. reflexivity. }
    rewrite !concat_app, concat_single. simpl. rewrite concat_blank. simpl.
    repeat (rewrite <- app_assoc; simpl). reflexivity.
Qed.

Section DeclarationText.

Variables (pre post seg1 c1 seg2 c2 : Text).
Variable front : list (Text * Text).

Local Abbreviation brs := (front ++ [(seg1, c1); (seg2, c2)]).
Local Abbreviation src := (pre ++ declText brs ++ post).
Local Abbreviation H := (pre ++ declText front ++ seg1).
Local Abbreviation p1f := (length H).
Local Abbreviation p1s := ((p1f + 1 + length c1)%nat).
Local Abbreviation p2f := ((p1s + 1 + length seg2)%nat).
Local Abbreviation p2s := ((p2f + 1 + length c2)%nat).

Lemma src_split :
  src = H ++ "["%char :: c1 ++ "]"%char :: seg2 ++
        "["%char :: c2 ++ "]"%char :: post.
Proof.
  rewrite declText_app.
  unfold declText, bracketText. simpl.
  repeat (rewrite <- app_assoc; simpl). reflexivity.
Qed.

Lemma bracket_pairs_found :
  Forall plainBracket brs ->
  exists BPfront,
    getBracketLocPairs src (length pre) (length brs) =
    Ok (BPfront ++ [(p1f, p1s); (p2f, p2s)]) /\
    length BPfront = length front.
Proof.
  intros Hall.
  exists (bracketLocs (length pre) front). split.
  - change (pre ++ declText brs ++ post)
      with (pre ++ [] ++ declText brs ++ post).
    rewrite (getBracketLocPairs_shape brs pre [] post Hall) by (intros []).
    f_equal. rewrite bracketLocs_app. simpl length.
    rewrite Nat.add_0_r. f_equal. simpl.
    rewrite !length_app.
    rewrite !Nat.add_assoc. reflexivity.
  - apply length_bracketLocs.
Qed.

Lemma merged_split (NewStr : Text) :
  pre ++ declText (front ++ [(seg1, NewStr)]) ++ seg2 ++ post =
  H ++ "["%char :: NewStr ++ "]"%char :: seg2 ++ post.
Proof.
  rewrite declText_app.
  unfold declText, bracketText. simpl.
  repeat (rewrite <- app_assoc; simpl). reflexivity.
Qed.

Lemma slots_after_removal :
  applyEdit (single src) (RemoveText p2f p2s) =
  single (H ++ ["["%char]) ++ single c1 ++ single ["]"%char] ++
  (single seg2 ++ repeat [] (S (S (length c2))) ++ single post).
Proof.
  rewrite src_split.
  replace (H ++ "["%char :: c1 ++ "]"%char :: seg2 ++
           "["%char :: c2 ++ "]"%char :: post)
    with ((H ++ "["%char :: c1 ++ "]"%char :: seg2) ++
          "["%char :: c2 ++ "]"%char :: post)
    by (repeat (rewrite <- app_assoc; simpl); reflexivity).
  rewrite removeLast_slots.
  - replace (H ++ "["%char :: c1 ++ "]"%char :: seg2)
      with ((H ++ ["["%char]) ++ c1 ++ ["]"%char] ++ seg2)
      by (repeat (rewrite <- app_assoc; simpl); reflexivity).
    rewrite !single_app. repeat (rewrite <- app_assoc; simpl). reflexivity.
  - rewrite !length_app. simpl.
    rewrite length_app. simpl. lia.
  - reflexivity.
Qed.

Lemma render_decl_removed :
  render src [RemoveText p2f p2s] =
  pre ++ declText (front ++ [(seg1, c1)]) ++ seg2 ++ post.
Proof.
  unfold render. cbn [fold_left]. rewrite slots_after_removal.
  rewrite merged_split.
  rewrite !concat_app, !concat_single, concat_blank. simpl.
  repeat (rewrite <- app_assoc; simpl). reflexivity.
Qed.

Lemma render_decl_merged (NewStr : Text) :
  render src [RemoveText p2f p2s;
              ReplaceText (p1f + 1) (p1s - 1) NewStr] =
  pre ++ declText (front ++ [(seg1, NewStr)]) ++ seg2 ++ post.
Proof.
  unfold render. cbn [fold_left]. rewrite slots_after_removal.
  rewrite replaceSec_concat.
  - rewrite merged_split.
    rewrite !concat_app, !concat_single, concat_blank. reflexivity.
  - reflexivity.
  - reflexivity.
Qed.

Variables (VD : VarDecl) (st : Pass) (tfront : list Ty).
Variables (SecTy LastElem : Ty) (dk : Z).

Hypothesis Hloc : getLocation VD = length pre.
Hypothesis Hplain : Forall plainBracket brs.
Hypothesis Hlayers :
  arrayLayers (getType VD) = tfront ++ [SecTy; ConstantArrayTy LastElem dk].
Hypothesis Hdim : length tfront = length front.

Lemma rewriteOneVarDecl_steps :
  rewriteOneVarDecl src VD st =
  let st1 := emit (RemoveText p2f p2s) st in
  if negb (isIncompleteArrayType SecTy) then
    _ <- TransAssert (isConstantArrayType SecTy) "Non ConstantArrayType!" ;;
    let st2 := setArraySz (getConstArraySize SecTy) st1 in
    Ok (emit (ReplaceText (p1f + 1) (p1s - 1)
                (decimal (MachineInt.to_unsigned
                            (MachineInt.to_unsigned dk * ArraySz st2))))
             st2)
  else Ok st1.
Proof.
  unfold rewriteOneVarDecl, getArrayDimensionAndTypes.
  rewrite arrayLayers_isArrayType by (rewrite Hlayers; destruct tfront; discriminate).
  cbn [TransAssert bind].
  rewrite Hlayers, Hloc.
  replace (length (tfront ++ [SecTy; ConstantArrayTy LastElem dk]))
    with (length brs)
    by (rewrite !length_app; simpl; lia).
  destruct (bracket_pairs_found Hplain) as (BPfront & HBP & HBPlen).
  rewrite HBP. cbn [bind].
  replace (1 <? length (BPfront ++ [(p1f, p1s); (p2f, p2s)]))%nat with true
    by (symmetry; apply Nat.ltb_lt; rewrite length_app; simpl; lia).
  cbn [TransAssert bind].
  rewrite !rev_app_distr. simpl rev. cbn [app nth].
  cbn [isConstantArrayType TransAssert bind getConstArraySize fst snd].
  reflexivity.
Qed.

End DeclarationText.

(** ** What the rewrite of expressions leaves alone *)

Lemma emit_frame (ed : Edit) (st : Pass) :
  ArraySz (emit ed st) = ArraySz st /\
  TheVarDecl (emit ed st) = TheVarDecl st.
Proof. split; reflexivity. Qed.

Lemma rewriteSubscriptExpr_frame
      (src : Text) (IdxExprs : list Expr) (st st' : Pass) :
  rewriteSubscriptExpr src IdxExprs st = Ok st' ->
  ArraySz st' = ArraySz st /\ TheVarDecl st' = TheVarDecl st.
Proof.
  unfold rewriteSubscriptExpr.
  destruct IdxExprs as [ | LastE [ | SecE rest]]; intros H;
    try (injection H as <-; split; reflexivity).
  inv_bind H. unfold removeArraySubscriptExpr in Ha.
  destruct (getSourceRange LastE) as [b e].
  inv_bind Ha. inv_bind Ha. injection Ha as <-.
  unfold replaceExpr in H. destruct (getSourceRange SecE) as [b' e'].
  destruct (isIntegerExpr LastE && isIntegerExpr SecE).
  - inv_bind H. inv_bind H. injection H as <-. split; reflexivity.
  - injection H as <-. split; reflexivity.
Qed.

Lemma handleOneArraySubscriptExpr_frame
      (src : Text) (ASE : Expr) (st st' : Pass) :
  handleOneArraySubscriptExpr src ASE st = Ok st' ->
  ArraySz st' = ArraySz st /\ TheVarDecl st' = TheVarDecl st.
Proof.
  unfold handleOneArraySubscriptExpr. intros H.
  destruct ASE as [ | | | | | R T b i | | ];
    try (injection H as <-; split; reflexivity).
  destruct (negb (isScalarType T) && negb (isStructureType T) &&
            negb (isUnionType T));
    [injection H as <-; split; reflexivity | ].
  destruct (getBaseExprAndIdxExprs (ArraySubscriptExpr R T b i))
    as [BaseE IdxExprs].
  destruct (length IdxExprs <=? 1)%nat;
    [injection H as <-; split; reflexivity | ].
  destruct BaseE as [ | | | | R' [VD | ] | | | ];
    try (injection H as <-; split; reflexivity).
  destruct (match TheVarDecl st with
            | Some T0 => Nat.eqb (getCanonicalDecl VD) T0
            | None => false
            end).
  - apply (rewriteSubscriptExpr_frame src IdxExprs). exact H.
  - injection H as <-. split; reflexivity.
Qed.

(** Walking an expression changes neither the cached extent nor the
    target: only a declaration rewrite writes the cache. *)
Lemma TraverseStmt_frame (src : Text) (E : Expr) : forall st st',
  TraverseStmt src E st = Ok st' ->
  ArraySz st' = ArraySz st /\ TheVarDecl st' = TheVarDecl st.
Proof.
  induction E; intros st st' H; cbn [TraverseStmt] in H;
    try (injection H as <-; split; reflexivity);
    try (eapply IHE; exact H).
  - inv_bind H. inv_bind H.
    apply handleOneArraySubscriptExpr_frame in Ha.
    apply IHE1 in Ha0. apply IHE2 in H.
    destruct Ha as [A1 A2], Ha0 as [B1 B2], H as [C1 C2].
    split; congruence.
  - inv_bind H. apply IHE1 in Ha. apply IHE2 in H.
    destruct Ha as [A1 A2], H as [C1 C2]. split; congruence.
Qed.

(** ** Candidates are counted once *)

Lemma candidatesFrom_fresh (TU : list Node) : forall seen,
  NoDup (candidatesFrom seen TU) /\
  forall C, In C (candidatesFrom seen TU) -> ~ In C seen.
Proof.
  induction TU as [ | [VD | E] rest IH]; intros seen; simpl.
  - split; [constructor | intros C []].
  - destruct (admitted VD); simpl; [ | apply IH].
    destruct (existsb (Nat.eqb (getCanonicalDecl VD)) seen) eqn:Hseen;
      simpl; [apply IH | ].
    destruct (IH (getCanonicalDecl VD :: seen)) as [Hnd Hfresh].
    split.
    + constructor; [ | exact Hnd].
      intros Hin. apply (Hfresh _ Hin). left. reflexivity.
    + intros C [<- | Hin].
      * intros Hin. 
        assert (existsb (Nat.eqb (getCanonicalDecl VD)) seen = true).
        { apply existsb_exists. exists (getCanonicalDecl VD).
          split; [exact Hin | apply Nat.eqb_refl]. }
        congruence.
      * intros Hs. apply (Hfresh _ Hin). right. exact Hs.
  - apply IH.
Qed.

Lemma candidates_NoDup (TU : list Node) : NoDup (candidates TU).
Proof. apply candidatesFrom_fresh. Qed.

(** * The claims *)

Import Scenario.




(** C2, as amended: for a target declaration whose brackets are not
    nested, with dimension extents [d0, ..., dk] (k >= 1) of which the last
    is fixed, one declaration rewrite deletes the last bracket pair and, when
    the second-to-last dimension is fixed, replaces the contents of the
    second-to-last brackets by the decimal text of [d(k-1) * dk] reduced
    modulo 2^32 (the product is computed in [unsigned]); all other brackets
    keep their text, so the declarator has exactly one bracket pair less.
    When the second-to-last dimension is incomplete, its bracket keeps its
    text and no product is computed. *)
Theorem declaration_rewrite_merges :
  forall (pre post seg1 c1 seg2 c2 : Text) (front : list (Text * Text))
         (VD : VarDecl) (st : Pass) (tfront : list Ty)
         (SecTy LastElem : Ty) (dk : Z),
    let brs := front ++ [(seg1, c1); (seg2, c2)] in
    let src := pre ++ declText brs ++ post in
    getLocation VD = length pre ->
    Forall plainBracket brs ->
    arrayLayers (getType VD) =
      tfront ++ [SecTy; ConstantArrayTy LastElem dk] ->
    length tfront = length front ->
    TheRewriter st = [] ->
    (forall e d, SecTy = ConstantArrayTy e d ->
       exists st',
         rewriteOneVarDecl src VD st = Ok st' /\
         render src (TheRewriter st') =
           pre ++ declText (front ++ [(seg1, decimal ((d * dk) mod 2 ^ 32))])
               ++ seg2 ++ post /\
         length (front ++ [(seg1, decimal ((d * dk) mod 2 ^ 32))]) =
           (length brs - 1)%nat /\
         ArraySz st' = d mod 2 ^ 32) /\
    (forall e, SecTy = IncompleteArrayTy e ->
       exists st',
         rewriteOneVarDecl src VD st = Ok st' /\
         render src (TheRewriter st') =
           pre ++ declText (front ++ [(seg1, c1)]) ++ seg2 ++ post /\
         ArraySz st' = ArraySz st).
Proof.
  intros pre post seg1 c1 seg2 c2 front VD st tfront SecTy LastElem dk
         brs src Hloc Hplain Hlayers Hdim Hrw.
  pose proof (rewriteOneVarDecl_steps pre post seg1 c1 seg2 c2 front VD st
                tfront SecTy LastElem dk Hloc Hplain Hlayers Hdim) as Hsteps.
  cbv zeta in Hsteps. fold brs in Hsteps. fold src in Hsteps.
  split.
  - intros e d ->. simpl in Hsteps.
    eexists. split; [exact Hsteps | ].
    unfold emit, setArraySz. simpl. rewrite Hrw. simpl.
    split; [ | split].
    + unfold src, brs. rewrite render_decl_merged.
      unfold MachineInt.to_unsigned, MachineInt.UINT_RANGE.
      rewrite <- Z.mul_mod by lia. rewrite (Z.mul_comm dk d). reflexivity.
    + unfold brs. rewrite !length_app. simpl. lia.
    + reflexivity.
  - intros e ->. simpl in Hsteps.
    eexists. split; [exact Hsteps | ].
    unfold emit. simpl. rewrite Hrw. simpl.
    split; [ | reflexivity].
    unfold src, brs. apply render_decl_removed.
Qed.

Lemma declaration_rewrite_merges_witness :
  (forall e d, int34 = ConstantArrayTy e d ->
     exists st',
       rewriteOneVarDecl (txt "int a[2][3][4];") a234 (initialPass 0) =
         Ok st' /\
       render (txt "int a[2][3][4];") (TheRewriter st') =
         txt "int " ++
         declText ([(txt "a", txt "2")] ++
                   [([], decimal ((d * 4) mod 2 ^ 32))]) ++ [] ++ txt ";" /\
       length ([(txt "a", txt "2")] ++ [([], decimal ((d * 4) mod 2 ^ 32))]) =
         (length ([(txt "a", txt "2")] ++ [([], txt "3"); ([], txt "4")]) - 1)%nat /\
       ArraySz st' = d mod 2 ^ 32) /\
  (forall e, int34 = IncompleteArrayTy e ->
     exists st',
       rewriteOneVarDecl (txt "int a[2][3][4];") a234 (initialPass 0) =
         Ok st' /\
       render (txt "int a[2][3][4];") (TheRewriter st') =
         txt "int " ++ declText ([(txt "a", txt "2")] ++ [([], txt "3")])
             ++ [] ++ txt ";" /\
       ArraySz st' = ArraySz (initialPass 0)).
Proof.
  apply (declaration_rewrite_merges
           (txt "int ") (txt ";") [] (txt "3") [] (txt "4")
           [(txt "a", txt "2")] a234 (initialPass 0) [int234] int34
           BuiltinTy 4).
  - reflexivity.
  - repeat constructor; unfold noChar; simpl; intros H;
      repeat match goal with
             | H : _ \/ _ |- _ => destruct H as [H | H]
             end; try discriminate H; try contradiction.
  - reflexivity.
  - reflexivity.
  - reflexivity.
Defined.

(** C2, as stated, fails where the product of the two extents leaves the
    range of [unsigned]: [char a[65536][65536];] is rewritten to
    [char a[0];], not to [char a[4294967296];]. *)
Lemma declaration_product_wraps :
  (exists st,
     runPass srcBig 1 false false 0 [DeclNode aBig] = Ok st /\
     render srcBig (TheRewriter st) = txt "char a[0];") /\
  ~ (exists st,
       runPass srcBig 1 false false 0 [DeclNode aBig] = Ok st /\
       render srcBig (TheRewriter st) = txt "char a[4294967296];").
Proof.
  split.
  - eexists. split; vm_compute; reflexivity.
  - intros (st & Hrun & Hr).
    vm_compute in Hrun. injection Hrun as <-.
    vm_compute in Hr. discriminate Hr.
Qed.



(** The index of that scenario does not depend on the trailing extent:
    [int a[][7];] gets the same edits on the subscript. *)
Lemma scenario_incomplete_ignores_trailing_extent : forall ArraySz0 : Z,
  exists st3 st7,
    runPass src_3 1 false false ArraySz0 TU_3 = Ok st3 /\
    runPass src_7 1 false false ArraySz0 TU_7 = Ok st7 /\
    TheRewriter st3 = TheRewriter st7.
Proof.
  intros ArraySz0. eexists. eexists.
  split; [ | split];
    cbv -[decimal MachineInt.to_int Z.mul Z.add]; reflexivity.
Qed.

(** C4: for [int a[2][3][4];] with the subscript [a[1][2][3]] and target
    instance 1, the pass rewrites the declaration to [int a[2][12];] and the
    subscript to [a[1][9]], the two trailing literal indices folded into
    the single literal 9. *)
Theorem scenario_three_dimensions : forall ArraySz0 : Z,
  exists st,
    runPass src234 1 false false ArraySz0 TU234 = Ok st /\
    TransError st = TransSuccess /\
    render src234 (TheRewriter st) =
      txt "int a[2][12]; void foo(void) { a[1][9]; }".
Proof.
  intros ArraySz0. eexists.
  split; [ | split]; vm_compute; reflexivity.
Qed.

(** C5, as amended: outside the query-only mode, requesting a number
    greater than the count of candidates yields the outcome
    [TransMaxInstanceError] with no edit at all, so the text stays as it
    is; requesting the number 0 does not: it passes the guard on the count
    and stops at the assertion that a target was selected, no edit made
    either. *)
Theorem out_of_range_instance :
  forall (src : Text) (TU : list Node) (n ArraySz0 : Z) (diag : bool),
    (Z.of_nat (length (candidates TU)) < n ->
     exists st,
       runPass src n false diag ArraySz0 TU = Ok st /\
       TransError st = TransMaxInstanceError /\
       TheRewriter st = [] /\
       render src (TheRewriter st) = src) /\
    (n = 0 ->
     runPass src n false diag ArraySz0 TU = AssertFail "NULL TheVarDecl!").
Proof.
  intros src TU n ArraySz0 diag. unfold runPass, HandleTranslationUnit.
  rewrite collected_count.
  destruct (collection_frame n TU (initialPass ArraySz0)) as (_ & Hrw & _).
  cbv zeta in Hrw. split.
  - intros Hgt.
    replace (Z.of_nat (length (candidates TU)) <? n) with true
      by (symmetry; apply Z.ltb_lt; exact Hgt).
    eexists. split; [reflexivity | ].
    simpl. rewrite Hrw. simpl. repeat split. apply render_nil.
  - intros ->.
    replace (Z.of_nat (length (candidates TU)) <? 0) with false
      by (symmetry; apply Z.ltb_ge; lia).
    rewrite collection_no_target by (simpl; lia).
    reflexivity.
Qed.

Lemma out_of_range_instance_witness :
  (exists st,
     runPass src234 2 false false 0 TU234 = Ok st /\
     TransError st = TransMaxInstanceError /\
     TheRewriter st = [] /\
     render src234 (TheRewriter st) = src234) /\
  runPass src234 0 false false 0 TU234 = AssertFail "NULL TheVarDecl!".
Proof.
  split.
  - apply (out_of_range_instance src234 TU234 2 0 false).
    vm_compute. reflexivity.
  - apply (out_of_range_instance src234 TU234 0 0 false).
    reflexivity.
Defined.

(** C5, as stated, fails for the number 0: the outcome is not
    [TransMaxInstanceError]; the pass stops at an assertion. *)
Lemma instance_zero_not_exhausted :
  runPass src234 0 false false 0 TU234 = AssertFail "NULL TheVarDecl!" /\
  ~ (exists st,
       runPass src234 0 false false 0 TU234 = Ok st /\
       TransError st = TransMaxInstanceError).
Proof.
  split; [reflexivity | ].
  intros (st & Hrun & _). vm_compute in Hrun. discriminate Hrun.
Qed.


(** ** Chains *)

Lemma rewriteSubscriptExpr_emits
      (src : Text) (LastE SecE : Expr) (rest : list Expr) (st st' : Pass) :
  rewriteSubscriptExpr src (LastE :: SecE :: rest) st = Ok st' ->
  exists p q NewStr,
    TheRewriter st' =
    TheRewriter st ++
    [RemoveText p q;
     ReplaceText (fst (getSourceRange SecE)) (snd (getSourceRange SecE)) NewStr].
Proof.
  unfold rewriteSubscriptExpr. intros H. inv_bind H.
  unfold removeArraySubscriptExpr in Ha.
  destruct (getSourceRange LastE) as [b e].
  inv_bind Ha. inv_bind Ha. injection Ha as <-.
  assert (Hrepl : forall t,
             TheRewriter (replaceExpr SecE t (emit (RemoveText a0 a1) st)) =
             TheRewriter st ++
             [RemoveText a0 a1;
              ReplaceText (fst (getSourceRange SecE))
                          (snd (getSourceRange SecE)) t]).
  { intros t. unfold replaceExpr. destruct (getSourceRange SecE).
    simpl. rewrite <- app_assoc. reflexivity. }
  destruct (isIntegerExpr LastE && isIntegerExpr SecE).
  - inv_bind H. inv_bind H. injection H as <-. eauto.
  - injection H as <-. eauto.
Qed.

(** C8: a subscript node is rewritten exactly when its result type is
    scalar, structure or union, its chain has at least two index
    expressions and its base is a direct name reference resolving to the
    canonical declaration of the target; on every other node the handler
    returns the state it was given, so no text changes.  A rewrite that
    completes leaves exactly two edits: the removal of the trailing
    subscript and the replacement of the second-to-last index. *)
Theorem chain_rewritten_iff_qualifies :
  forall (src : Text) (ASE : Expr) (st : Pass),
    handleOneArraySubscriptExpr src ASE st =
      (if qualifies ASE st
       then rewriteSubscriptExpr src (snd (getBaseExprAndIdxExprs ASE)) st
       else Ok st) /\
    (forall st',
       handleOneArraySubscriptExpr src ASE st = Ok st' ->
       if qualifies ASE st
       then exists p q b e NewStr,
              TheRewriter st' =
              TheRewriter st ++ [RemoveText p q; ReplaceText b e NewStr]
       else st' = st).
Proof.
  intros src ASE st.
  assert (Heq : handleOneArraySubscriptExpr src ASE st =
                if qualifies ASE st
                then rewriteSubscriptExpr src
                       (snd (getBaseExprAndIdxExprs ASE)) st
                else Ok st).
  { unfold handleOneArraySubscriptExpr, qualifies, refersToTarget.
    destruct ASE as [ | | | | | R T b i | | ]; try reflexivity.
    destruct (getBaseExprAndIdxExprs (ArraySubscriptExpr R T b i))
      as [BaseE IdxExprs]. cbn [fst snd].
    destruct (isScalarType T || isStructureType T || isUnionType T) eqn:HT.
    - replace (negb (isScalarType T) && negb (isStructureType T) &&
               negb (isUnionType T)) with false
        by (destruct T; simpl in *; congruence).
      destruct IdxExprs as [ | x [ | y r]]; try reflexivity.
      cbn [length Nat.leb andb].
      destruct BaseE as [ | | | | R' [VD | ] | | | ]; reflexivity.
    - replace (negb (isScalarType T) && negb (isStructureType T) &&
               negb (isUnionType T)) with true
        by (destruct T; simpl in *; congruence).
      reflexivity. }
  split; [exact Heq | ].
  intros st' Hok. rewrite Heq in Hok.
  destruct (qualifies ASE st) eqn:Hq.
  - unfold qualifies in Hq.
    destruct ASE as [ | | | | | R T b i | | ]; try discriminate Hq.
    apply andb_prop in Hq. destruct Hq as [Hq _].
    apply andb_prop in Hq. destruct Hq as [_ Hlen].
    destruct (snd (getBaseExprAndIdxExprs (ArraySubscriptExpr R T b i)))
      as [ | x [ | y r]]; try discriminate Hlen.
    destruct (rewriteSubscriptExpr_emits src x y r st st' Hok)
      as (p & q & t & Hlog).
    eauto 6.
  - injection Hok as <-. reflexivity.
Qed.

Lemma chain_rewritten_iff_qualifies_witness :
  if qualifies use234 (mkPass 1 [0%nat] (Some 0%nat) 3 [] TransSuccess)
  then exists p q b e NewStr,
         TheRewriter
           (emit (ReplaceText 38 38 (txt "9"))
              (emit (RemoveText 40 42)
                 (mkPass 1 [0%nat] (Some 0%nat) 3 [] TransSuccess))) =
         TheRewriter (mkPass 1 [0%nat] (Some 0%nat) 3 [] TransSuccess) ++
         [RemoveText p q; ReplaceText b e NewStr]
  else emit (ReplaceText 38 38 (txt "9"))
         (emit (RemoveText 40 42)
            (mkPass 1 [0%nat] (Some 0%nat) 3 [] TransSuccess)) =
       mkPass 1 [0%nat] (Some 0%nat) 3 [] TransSuccess.
Proof.
  apply (chain_rewritten_iff_qualifies src234 use234
           (mkPass 1 [0%nat] (Some 0%nat) 3 [] TransSuccess)).
  reflexivity.
Defined.

(** A node whose result type is still an array is filtered out: this is
    what keeps the inner nodes of a chain from being rewritten when the
    elements of the array are not pointers. *)
Lemma array_typed_node_filtered
      (src : Text) (R : SourceRange) (T : Ty) (b i : Expr) (st : Pass) :
  isArrayType T = true ->
  handleOneArraySubscriptExpr src (ArraySubscriptExpr R T b i) st = Ok st.
Proof.
  intros HT. unfold handleOneArraySubscriptExpr.
  destruct T; simpl in HT; try discriminate HT; reflexivity.
Qed.

(** C9 on the input where the code departs from it: in
    [int *a[2][3];] the chain [a[1][2][3]] has two nodes of scalar type,
    [a[1][2]] (a pointer) and [a[1][2][3]].  Both pass the filter on the
    result type, both qualify, and the chain is rewritten twice in one
    run: four edits on it instead of two. *)
Theorem pointer_element_chain_rewritten_twice :
  exists st,
    runPass srcPtr 1 false false 0 TUPtr = Ok st /\
    qualifies usePtr (HandleTopLevelDecls 1 TUPtr (initialPass 0)) = true /\
    qualifies innerPtr (HandleTopLevelDecls 1 TUPtr (initialPass 0)) = true /\
    TheRewriter st =
      [RemoveText 9 11; ReplaceText 7 7 (txt "6");
       RemoveText 38 40; ReplaceText 36 36 (txt "7");
       RemoveText 35 37; ReplaceText 33 33 (txt "4")].
Proof.
  eexists. split; [vm_compute; reflexivity | ].
  repeat split.
Qed.

(** ** Literal detection *)

Lemma isIntegerExpr_IgnoreParenCasts (E : Expr) :
  isIntegerExpr (IgnoreParenCasts E) = isIntegerExpr E.
Proof.
  unfold isIntegerExpr. induction E; simpl; auto.
Qed.

(** C10: literal detection looks through parentheses and casts: an index
    is taken for a literal exactly when what remains after dropping them
    is an integer or character literal, so [(2)] and [(char)3] count.  The
    value folded is the one constant evaluation gives for the whole index
    expression, casts applied, and the chain gets the single decimal
    literal [SecIdx * ArraySz + LastIdx] instead of a synthesized
    arithmetic text. *)
Theorem literal_detection_ignores_paren_casts :
  forall (src : Text) (LastE SecE : Expr) (rest : list Expr) (st : Pass)
         (l s : Z),
    isIntegerExpr (IgnoreParenCasts LastE) = true ->
    isIntegerExpr (IgnoreParenCasts SecE) = true ->
    EvaluateAsInt LastE = Some l -> EvaluateAsInt SecE = Some s ->
    MachineInt.fits_int l = true -> MachineInt.fits_int s = true ->
    bracketed src LastE ->
    (forall R E, isIntegerExpr (ParenExpr R E) = isIntegerExpr E) /\
    (forall R k E, isIntegerExpr (CastExpr R k E) = isIntegerExpr E) /\
    isIntegerExpr LastE = true /\ isIntegerExpr SecE = true /\
    exists p q,
      rewriteSubscriptExpr src (LastE :: SecE :: rest) st =
      Ok (replaceExpr SecE
            (decimal (MachineInt.to_int (s * ArraySz st + l)))
            (emit (RemoveText p q) st)).
Proof.
  intros src LastE SecE rest st l s HL HS El Es Fl Fs Hbr.
  rewrite isIntegerExpr_IgnoreParenCasts in HL, HS.
  split; [reflexivity | ]. split; [reflexivity | ].
  split; [exact HL | ]. split; [exact HS | ].
  apply rewriteSubscriptExpr_folds; assumption.
Qed.

Lemma literal_detection_ignores_paren_casts_witness :
  (forall R E, isIntegerExpr (ParenExpr R E) = isIntegerExpr E) /\
  (forall R k E, isIntegerExpr (CastExpr R k E) = isIntegerExpr E) /\
  isIntegerExpr
    (CastExpr (43, 49)%nat (CK_IntegralCast 8 true)
       (IntegerLiteral (49, 49)%nat 300)) = true /\
  isIntegerExpr (ParenExpr (38, 40)%nat (IntegerLiteral (39, 39)%nat 2)) =
    true /\
  exists p q,
    rewriteSubscriptExpr srcCast
      [CastExpr (43, 49)%nat (CK_IntegralCast 8 true)
         (IntegerLiteral (49, 49)%nat 300);
       ParenExpr (38, 40)%nat (IntegerLiteral (39, 39)%nat 2)]
      (mkPass 1 [0%nat] (Some 0%nat) 3 [] TransSuccess) =
    Ok (replaceExpr
          (ParenExpr (38, 40)%nat (IntegerLiteral (39, 39)%nat 2))
          (decimal (MachineInt.to_int (2 * 3 + 44)))
          (emit (RemoveText p q)
             (mkPass 1 [0%nat] (Some 0%nat) 3 [] TransSuccess))).
Proof.
  apply (literal_detection_ignores_paren_casts
           srcCast
           (CastExpr (43, 49)%nat (CK_IntegralCast 8 true)
              (IntegerLiteral (49, 49)%nat 300))
           (ParenExpr (38, 40)%nat (IntegerLiteral (39, 39)%nat 2))
           [] (mkPass 1 [0%nat] (Some 0%nat) 3 [] TransSuccess) 44 2).
  - reflexivity.
  - reflexivity.
  - reflexivity.
  - reflexivity.
  - reflexivity.
  - reflexivity.
  - split; simpl; tauto.
Defined.

(** The scenario [a[1][(2)][(char)3]] end to end. *)
Lemma scenario_paren_and_cast : forall ArraySz0 : Z,
  exists st,
    runPass srcCast 1 false false ArraySz0 TUCast = Ok st /\
    render srcCast (TheRewriter st) =
      txt "int a[2][12]; void foo(void) { a[1][9]; }".
Proof.
  intros ArraySz0. eexists. split; vm_compute; reflexivity.
Qed.

(** ** Synthesized index text *)



(** The readings asked of the index texts exist in that scenario. *)
Lemma synthesized_index_readings :
  readsAs (getExprString srcVar (rvalue (38, 38)%nat varI)) (CVar (txt "i")) /\
  readsAs (getExprString srcVar (rvalue (41, 41)%nat varJ)) (CVar (txt "j")) /\
  (2 <= level (CVar (txt "j")))%nat.
Proof. repeat split. simpl. lia. Qed.


(** * Further properties of the pass *)

(** ** Helpers *)

Lemma HandleTopLevelDecls_app (n : Z) (TU1 TU2 : list Node) : forall st,
  HandleTopLevelDecls n (TU1 ++ TU2) st =
  HandleTopLevelDecls n TU2 (HandleTopLevelDecls n TU1 st).
Proof.
  induction TU1 as [ | [VD | E] rest IH]; intros st; simpl; auto.
Qed.

Lemma addOneVar_invariant (n : Z) (VD : VarDecl) (st : Pass) :
  collectorInvariant st -> collectorInvariant (addOneVar n VD st).
Proof.
  intros (Hnum & Hnd & Htgt). rewrite addOneVar_cases.
  destruct (admitted VD); simpl; [ | repeat split; assumption].
  destruct (existsb (Nat.eqb (getCanonicalDecl VD)) (VisitedVarDecls st))
    eqn:Hseen; simpl; [repeat split; assumption | ].
  unfold collectorInvariant. simpl. split; [ | split].
  - rewrite Hnum. lia.
  - constructor; [ | exact Hnd].
    intros Hin.
    assert (existsb (Nat.eqb (getCanonicalDecl VD)) (VisitedVarDecls st) = true).
    { apply existsb_exists. exists (getCanonicalDecl VD).
      split; [exact Hin | apply Nat.eqb_refl]. }
    congruence.
  - intros T HT.
    destruct (n =? ValidInstanceNum st + 1).
    + injection HT as <-. left. reflexivity.
    + right. apply Htgt. exact HT.
Qed.

Lemma visited_grows (n : Z) (TU : list Node) : forall st C,
  In C (VisitedVarDecls st) ->
  In C (VisitedVarDecls (HandleTopLevelDecls n TU st)).
Proof.
  induction TU as [ | [VD | E] rest IH]; intros st C Hin; simpl; auto.
  apply IH. rewrite addOneVar_cases.
  destruct (admitted VD && _); simpl; auto.
Qed.

Lemma admitted_visited (n : Z) (TU : list Node) : forall st VD,
  In (DeclNode VD) TU -> admitted VD = true ->
  In (getCanonicalDecl VD) (VisitedVarDecls (HandleTopLevelDecls n TU st)).
Proof.
  induction TU as [ | N rest IH]; intros st VD Hin Hadm; [contradiction | ].
  destruct Hin as [-> | Hin].
  - simpl. apply visited_grows. rewrite addOneVar_cases, Hadm. simpl.
    destruct (existsb (Nat.eqb (getCanonicalDecl VD)) (VisitedVarDecls st))
      eqn:Hseen; simpl.
    + apply existsb_exists in Hseen. destruct Hseen as (x & Hx & Heq).
      apply Nat.eqb_eq in Heq. subst x. exact Hx.
    + left. reflexivity.
  - destruct N as [VD' | E]; simpl; apply IH; assumption.
Qed.

(** ** Collection *)

(** X1: when the requested instance number lies between 1 and the number
    of candidates, the collection selects the candidate of that ordinal,
    counting distinct canonical declarations in first-visit order from 1. *)
Theorem nth_candidate_selected :
  forall (n c : Z) (TU : list Node),
    1 <= n <= Z.of_nat (length (candidates TU)) ->
    exists T,
      nth_error (candidates TU) (Z.to_nat (n - 1)) = Some T /\
      TheVarDecl (HandleTopLevelDecls n TU (initialPass c)) = Some T.
Proof.
  intros n c TU Hn.
  destruct (nth_error (candidates TU) (Z.to_nat (n - 1))) as [T | ] eqn:HT.
  - exists T. split; [reflexivity | ].
    pose proof (collection_target n TU (initialPass c)) as Hsel.
    cbn [initialPass ValidInstanceNum VisitedVarDecls] in Hsel.
    fold (candidates TU) in Hsel.
    replace (n - 0 - 1) with (n - 1) in Hsel by lia.
    rewrite Hsel by lia. exact HT.
  - apply nth_error_None in HT. lia.
Qed.

Lemma nth_candidate_selected_witness :
  exists T,
    nth_error
      (candidates [DeclNode a234; DeclNode (mkVarDecl 0 int234 20);
                   DeclNode (mkVarDecl 7 BuiltinTy 30);
                   DeclNode (mkVarDecl 1 int34 40)])
      (Z.to_nat (2 - 1)) = Some T /\
    TheVarDecl
      (HandleTopLevelDecls 2
         [DeclNode a234; DeclNode (mkVarDecl 0 int234 20);
          DeclNode (mkVarDecl 7 BuiltinTy 30);
          DeclNode (mkVarDecl 1 int34 40)]
         (initialPass 0)) = Some T.
Proof.
  apply (nth_candidate_selected 2 0
           [DeclNode a234; DeclNode (mkVarDecl 0 int234 20);
            DeclNode (mkVarDecl 7 BuiltinTy 30);
            DeclNode (mkVarDecl 1 int34 40)]).
  vm_compute. split; discriminate.
Defined.

(** X2: whatever the translation unit and the requested number, the
    collection leaves the counter equal to the size of the visited set, the
    visited set free of duplicates, and the target, if one is selected,
    inside the visited set. *)
Theorem collection_keeps_invariant :
  forall (n c : Z) (TU : list Node),
    collectorInvariant (HandleTopLevelDecls n TU (initialPass c)).
Proof.
  intros n c TU.
  assert (Hgen : forall st, collectorInvariant st ->
                            collectorInvariant (HandleTopLevelDecls n TU st)).
  { induction TU as [ | [VD | E] rest IH]; intros st Hinv; simpl.
    - exact Hinv.
    - apply IH. apply addOneVar_invariant. exact Hinv.
    - apply IH. exact Hinv. }
  apply Hgen. unfold collectorInvariant, initialPass. simpl.
  split; [reflexivity | ]. split; [constructor | ]. intros T HT. discriminate HT.
Qed.

(** X3: a redeclaration is not counted again: visiting one more
    declaration whose canonical declaration is that of an admitted
    declaration already visited leaves the whole state of the collection
    as it was. *)
Theorem redeclaration_not_counted :
  forall (n : Z) (TU : list Node) (st : Pass) (VD VD' : VarDecl),
    In (DeclNode VD) TU -> admitted VD = true ->
    getCanonicalDecl VD' = getCanonicalDecl VD ->
    HandleTopLevelDecls n (TU ++ [DeclNode VD']) st =
    HandleTopLevelDecls n TU st.
Proof.
  intros n TU st VD VD' Hin Hadm Hcan.
  rewrite HandleTopLevelDecls_app. simpl.
  rewrite addOneVar_cases, Hcan.
  replace (existsb (Nat.eqb (getCanonicalDecl VD))
                   (VisitedVarDecls (HandleTopLevelDecls n TU st)))
    with true.
  - rewrite andb_false_r. reflexivity.
  - symmetry. apply existsb_exists. exists (getCanonicalDecl VD).
    split; [ | apply Nat.eqb_refl].
    apply admitted_visited; assumption.
Qed.

Lemma redeclaration_not_counted_witness :
  HandleTopLevelDecls 1 ([DeclNode a234] ++ [DeclNode (mkVarDecl 0 int234 20)])
                      (initialPass 0) =
  HandleTopLevelDecls 1 [DeclNode a234] (initialPass 0).
Proof.
  apply (redeclaration_not_counted 1 [DeclNode a234] (initialPass 0)
           a234 (mkVarDecl 0 int234 20)).
  - left. reflexivity.
  - reflexivity.
  - reflexivity.
Defined.

(** X4: the selection, once made, stays: when the requested number does
    not exceed the number of candidates of a first part of the translation
    unit, the declarations that follow do not change the target. *)
Theorem selection_is_final :
  forall (n c : Z) (TU1 TU2 : list Node),
    n <= Z.of_nat (length (candidates TU1)) ->
    TheVarDecl (HandleTopLevelDecls n (TU1 ++ TU2) (initialPass c)) =
    TheVarDecl (HandleTopLevelDecls n TU1 (initialPass c)).
Proof.
  intros n c TU1 TU2 Hn.
  rewrite HandleTopLevelDecls_app.
  apply collection_no_target.
  rewrite collected_count. exact Hn.
Qed.

Lemma selection_is_final_witness :
  TheVarDecl (HandleTopLevelDecls 1 ([DeclNode a234] ++
                                     [DeclNode (mkVarDecl 1 int34 40)])
                                  (initialPass 0)) =
  TheVarDecl (HandleTopLevelDecls 1 [DeclNode a234] (initialPass 0)).
Proof.
  apply (selection_is_final 1 0 [DeclNode a234]
           [DeclNode (mkVarDecl 1 int34 40)]).
  vm_compute. discriminate.
Defined.

(** X5: in query-only mode a run makes no edit and raises no error,
    whatever number is requested; it returns the state of the collection,
    whose counter is the number of candidates. *)
Theorem query_only_counts :
  forall (src : Text) (n c : Z) (diag : bool) (TU : list Node),
    exists st,
      runPass src n true diag c TU = Ok st /\
      ValidInstanceNum st = Z.of_nat (length (candidates TU)) /\
      TheRewriter st = [] /\
      TransError st = TransSuccess /\
      render src (TheRewriter st) = src.
Proof.
  intros src n c diag TU. eexists. split; [reflexivity | ].
  destruct (collection_frame n TU (initialPass c)) as (_ & Hrw & _ & Herr).
  cbv zeta in Hrw, Herr.
  rewrite collected_count, Hrw, Herr. simpl.
  repeat split. apply render_nil.
Qed.

(** ** The rewrite phase *)

Lemma extendsLog_refl (st : Pass) : extendsLog st st.
Proof.
  unfold extendsLog. repeat split. exists []. symmetry. apply app_nil_r.
Qed.

Lemma extendsLog_trans (st1 st2 st3 : Pass) :
  extendsLog st1 st2 -> extendsLog st2 st3 -> extendsLog st1 st3.
Proof.
  intros (A1 & A2 & A3 & A4 & e1 & A5) (B1 & B2 & B3 & B4 & e2 & B5).
  unfold extendsLog. repeat split; try congruence.
  exists (e1 ++ e2). rewrite B5, A5. symmetry. apply app_assoc.
Qed.

Lemma extendsLog_emit (ed : Edit) (st : Pass) : extendsLog st (emit ed st).
Proof. unfold extendsLog. simpl. repeat split. exists [ed]. reflexivity. Qed.

Lemma extendsLog_setArraySz (sz : Z) (st : Pass) :
  extendsLog st (setArraySz sz st).
Proof.
  unfold extendsLog. simpl. repeat split. exists []. symmetry. apply app_nil_r.
Qed.

Lemma rewriteOneVarDecl_extends (src : Text) (VD : VarDecl) (st st' : Pass) :
  rewriteOneVarDecl src VD st = Ok st' -> extendsLog st st'.
Proof.
  unfold rewriteOneVarDecl, getArrayDimensionAndTypes. intros H.
  inv_bind H. inv_bind H. inv_bind H. inv_bind H.
  destruct (negb (isIncompleteArrayType
                    (nth 1 (rev (arrayLayers (getType VD))) OtherTy))).
  - inv_bind H. injection H as <-.
    eapply extendsLog_trans; [apply extendsLog_emit | ].
    eapply extendsLog_trans; [apply extendsLog_setArraySz | ].
    apply extendsLog_emit.
  - injection H as <-. apply extendsLog_emit.
Qed.

Lemma rewriteSubscriptExpr_extends
      (src : Text) (IdxExprs : list Expr) (st st' : Pass) :
  rewriteSubscriptExpr src IdxExprs st = Ok st' -> extendsLog st st'.
Proof.
  unfold rewriteSubscriptExpr.
  destruct IdxExprs as [ | LastE [ | SecE rest]]; intros H;
    try (injection H as <-; apply extendsLog_refl).
  inv_bind H. unfold removeArraySubscriptExpr in Ha.
  destruct (getSourceRange LastE) as [b e].
  inv_bind Ha. inv_bind Ha. injection Ha as <-.
  unfold replaceExpr in H. destruct (getSourceRange SecE) as [b' e'].
  destruct (isIntegerExpr LastE && isIntegerExpr SecE).
  - inv_bind H. inv_bind H. injection H as <-.
    eapply extendsLog_trans; apply extendsLog_emit.
  - injection H as <-.
    eapply extendsLog_trans; apply extendsLog_emit.
Qed.

Lemma handleOneArraySubscriptExpr_qualifies
      (src : Text) (ASE : Expr) (st : Pass) :
  handleOneArraySubscriptExpr src ASE st =
  if qualifies ASE st
  then rewriteSubscriptExpr src (snd (getBaseExprAndIdxExprs ASE)) st
  else Ok st.
Proof.
  unfold handleOneArraySubscriptExpr, qualifies, refersToTarget.
  destruct ASE as [ | | | | | R T b i | | ]; try reflexivity.
  destruct (getBaseExprAndIdxExprs (ArraySubscriptExpr R T b i))
    as [BaseE IdxExprs]. cbn [fst snd].
  destruct T; simpl; try reflexivity;
    destruct IdxExprs as [ | x [ | y r]]; try reflexivity;
    destruct BaseE as [ | | | | R' [VD | ] | | | ]; reflexivity.
Qed.

Lemma handleOneArraySubscriptExpr_extends
      (src : Text) (ASE : Expr) (st st' : Pass) :
  handleOneArraySubscriptExpr src ASE st = Ok st' -> extendsLog st st'.
Proof.
  rewrite handleOneArraySubscriptExpr_qualifies.
  destruct (qualifies ASE st); intros H.
  - eapply rewriteSubscriptExpr_extends. exact H.
  - injection H as <-. apply extendsLog_refl.
Qed.

Lemma TraverseStmt_extends (src : Text) (E : Expr) : forall st st',
  TraverseStmt src E st = Ok st' -> extendsLog st st'.
Proof.
  induction E; intros st st' H; cbn [TraverseStmt] in H;
    try (injection H as <-; apply extendsLog_refl);
    try (eapply IHE; exact H).
  - inv_bind H. inv_bind H.
    apply handleOneArraySubscriptExpr_extends in Ha.
    apply IHE1 in Ha0. apply IHE2 in H.
    eapply extendsLog_trans; [exact Ha | ].
    eapply extendsLog_trans; [exact Ha0 | exact H].
  - inv_bind H. apply IHE1 in Ha. apply IHE2 in H.
    eapply extendsLog_trans; [exact Ha | exact H].
Qed.

Lemma VisitVarDecl_extends (src : Text) (VD : VarDecl) (st st' : Pass) :
  VisitVarDecl src VD st = Ok st' -> extendsLog st st'.
Proof.
  unfold VisitVarDecl. intros H.
  destruct (TheVarDecl st) as [T | ];
    [ | injection H as <-; apply extendsLog_refl].
  destruct (Nat.eqb (getCanonicalDecl VD) T).
  - eapply rewriteOneVarDecl_extends. exact H.
  - injection H as <-. apply extendsLog_refl.
Qed.

Lemma rewrite_walk_frame (src : Text) (TU : list Node) : forall st st',
  TraverseDecl src TU st = Ok st' -> extendsLog st st'.
Proof.
  induction TU as [ | [VD | E] rest IH]; intros st st' H;
    cbn [TraverseDecl] in H.
  - injection H as <-. apply extendsLog_refl.
  - inv_bind H. apply VisitVarDecl_extends in Ha. apply IH in H.
    eapply extendsLog_trans; [exact Ha | exact H].
  - inv_bind H. apply TraverseStmt_extends in Ha. apply IH in H.
    eapply extendsLog_trans; [exact Ha | exact H].
Qed.

(** X6: a rewrite walk that completes changes neither the counter, nor
    the visited set, nor the target, nor the error state; it only appends
    edits to those already asked of the rewriter. *)
Theorem rewrite_walk_appends_edits :
  forall (src : Text) (TU : list Node) (st st' : Pass),
    TraverseDecl src TU st = Ok st' -> extendsLog st st'.
Proof.
  intros src TU st st' H. unfold extendsLog.
  destruct (rewrite_walk_frame src TU st st' H)
    as (Hnum & Hvis & Htgt & Herr & edits & Hlog).
  repeat split; try assumption. exists edits. exact Hlog.
Qed.

Lemma rewrite_walk_appends_edits_witness :
  extendsLog
    (mkPass 1 [0%nat] (Some 0%nat) 0 [] TransSuccess)
    (mkPass 1 [0%nat] (Some 0%nat) 3
            [RemoveText 11 13; ReplaceText 9 9 (txt "12");
             RemoveText 40 42; ReplaceText 38 38 (txt "9")] TransSuccess).
Proof.
  apply (rewrite_walk_appends_edits src234 TU234).
  vm_compute. reflexivity.
Defined.

(** X7: the outcomes of a run outside query-only mode.  A requested number
    of zero or below stops the run at the assertion on the target.  A run
    that returns was asked for a number of at least 1, and its error state
    is [TransMaxInstanceError] when the number exceeds the count of
    candidates, [TransInternalError] when the host reported an error
    diagnostic after the rewrite, and [TransSuccess] otherwise; the counter
    it reports is the count of candidates. *)
Theorem run_outcomes :
  forall (src : Text) (n c : Z) (diag : bool) (TU : list Node),
    (n <= 0 ->
     runPass src n false diag c TU = AssertFail "NULL TheVarDecl!") /\
    (forall st,
       runPass src n false diag c TU = Ok st ->
       1 <= n /\
       ValidInstanceNum st = Z.of_nat (length (candidates TU)) /\
       TransError st =
         if Z.of_nat (length (candidates TU)) <? n
         then TransMaxInstanceError
         else if diag then TransInternalError else TransSuccess).
Proof.
  intros src n c diag TU.
  assert (Hzero : n <= 0 ->
                  runPass src n false diag c TU =
                  AssertFail "NULL TheVarDecl!").
  { intros Hn. unfold runPass, HandleTranslationUnit.
    rewrite collected_count.
    replace (Z.of_nat (length (candidates TU)) <? n) with false
      by (symmetry; apply Z.ltb_ge; lia).
    rewrite collection_no_target by (simpl; lia).
    reflexivity. }
  split; [exact Hzero | ].
  intros st Hrun.
  assert (Hpos : 1 <= n).
  { destruct (Z_le_gt_dec n 0) as [Hle | Hgt]; [ | lia].
    rewrite (Hzero Hle) in Hrun. discriminate Hrun. }
  split; [exact Hpos | ].
  unfold runPass, HandleTranslationUnit in Hrun.
  rewrite collected_count in Hrun.
  destruct (collection_frame n TU (initialPass c)) as (_ & _ & _ & Herr).
  cbv zeta in Herr. simpl in Herr.
  destruct (Z.of_nat (length (candidates TU)) <? n).
  - injection Hrun as <-. simpl. split; [apply collected_count | reflexivity].
  - inv_bind Hrun. inv_bind Hrun.
    apply rewrite_walk_frame in Ha0.
    destruct Ha0 as (Hnum & _ & _ & Hte & _).
    destruct diag; injection Hrun as <-; simpl;
      (split; [rewrite Hnum; apply collected_count | ]);
      [reflexivity | congruence].
Qed.

Lemma run_outcomes_witness :
  runPass src234 (-3) false true 0 TU234 = AssertFail "NULL TheVarDecl!" /\
  (forall st,
     runPass src234 1 false true 0 TU234 = Ok st ->
     1 <= 1 /\
     ValidInstanceNum st = Z.of_nat (length (candidates TU234)) /\
     TransError st =
       if Z.of_nat (length (candidates TU234)) <? 1
       then TransMaxInstanceError
       else if true then TransInternalError else TransSuccess).
Proof.
  split.
  - apply (run_outcomes src234 (-3) 0 true TU234). lia.
  - apply (run_outcomes src234 1 0 true TU234).
Defined.

(** The run of that scenario does return. *)
Lemma run_outcomes_reached :
  exists st, runPass src234 1 false true 0 TU234 = Ok st /\
             TransError st = TransInternalError.
Proof. eexists. split; vm_compute; reflexivity. Qed.

Lemma TraverseStmt_untouched (src : Text) (E : Expr) (st : Pass) :
  anyQualifies E st = false -> TraverseStmt src E st = Ok st.
Proof.
  induction E; intros H; cbn [TraverseStmt anyQualifies] in *;
    try reflexivity; try (apply IHE; exact H).
  - apply orb_false_elim in H. destruct H as [H Hi].
    apply orb_false_elim in H. destruct H as [Hq Hb].
    rewrite handleOneArraySubscriptExpr_qualifies, Hq. cbn [bind].
    rewrite (IHE1 Hb). cbn [bind]. apply IHE2. exact Hi.
  - apply orb_false_elim in H. destruct H as [Hl Hr].
    rewrite (IHE1 Hl). cbn [bind]. apply IHE2. exact Hr.
Qed.

(** X8: a translation unit in which no declaration is a declaration of
    the target and no subscript node qualifies goes through the rewrite
    walk untouched: the walk returns the very state it was given, so no
    edit is made and the text stays as it is. *)
Theorem unrelated_code_untouched :
  forall (src : Text) (TU : list Node) (st : Pass),
    forallb (fun N => negb (touchesTarget st N)) TU = true ->
    TraverseDecl src TU st = Ok st.
Proof.
  intros src TU st. induction TU as [ | [VD | E] rest IH]; intros H;
    cbn [TraverseDecl]; [reflexivity | | ];
    cbn [forallb] in H; apply andb_prop in H; destruct H as [Hhd Htl];
    apply negb_true_iff in Hhd; cbn [touchesTarget] in Hhd.
  - unfold VisitVarDecl.
    destruct (TheVarDecl st) as [T | ]; [rewrite Hhd | ];
      cbn [bind]; apply IH; exact Htl.
  - rewrite (TraverseStmt_untouched src E st Hhd). cbn [bind].
    apply IH. exact Htl.
Qed.

Lemma unrelated_code_untouched_witness :
  TraverseDecl src234 TU234
    (mkPass 2 [1%nat; 0%nat] (Some 1%nat) 0 [] TransSuccess) =
  Ok (mkPass 2 [1%nat; 0%nat] (Some 1%nat) 0 [] TransSuccess).
Proof.
  apply (unrelated_code_untouched src234 TU234
           (mkPass 2 [1%nat; 0%nat] (Some 1%nat) 0 [] TransSuccess)).
  reflexivity.
Defined.








(** ** Locating the brackets of a declaration *)

Lemma scanForward_first (c : ascii) (t : Text) : forall k,
  scanForward c t = Some k <->
  nth_error t k = Some c /\
  forall j, (j < k)%nat -> nth_error t j <> Some c.
Proof.
  induction t as [ | x t IH]; intros k; simpl.
  - split; [discriminate | ].
    intros [H _]. destruct k; discriminate H.
  - destruct (Ascii.eqb_spec x c) as [Heq | Hne].
    + subst x. split.
      * intros H. injection H as <-. split; [reflexivity | ].
        intros j Hj. lia.
      * intros [_ Hmin]. destruct k as [ | k]; [reflexivity | ].
        exfalso. apply (Hmin O); [lia | reflexivity].
    + split.
      * intros H. destruct (scanForward c t) as [k' | ] eqn:Hs;
          [ | discriminate H].
        injection H as <-.
        destruct (proj1 (IH k') eq_refl) as [Hk Hmin].
        split; [exact Hk | ].
        intros [ | j] Hj; simpl.
        -- congruence.
        -- apply Hmin. lia.
      * intros [Hk Hmin]. destruct k as [ | k].
        -- simpl in Hk. congruence.
        -- simpl in Hk.
           assert (Hs : scanForward c t = Some k).
           { apply IH. split; [exact Hk | ].
             intros j Hj. apply (Hmin (S j)). lia. }
           rewrite Hs. reflexivity.
Qed.

Lemma getLocationUntil_first (src : Text) (lo p : nat) (c : ascii) :
  getLocationUntil src lo c = Ok p <-> firstFrom src c lo p.
Proof.
  unfold getLocationUntil, firstFrom. split.
  - destruct (scanForward c (skipn lo src)) as [off | ] eqn:Hs;
      [ | discriminate].
    intros H. injection H as <-.
    apply scanForward_first in Hs. destruct Hs as [Hk Hmin].
    rewrite nth_error_skipn in Hk.
    split; [lia | ]. split; [exact Hk | ].
    intros j Hj. specialize (Hmin (j - lo)%nat).
    rewrite nth_error_skipn in Hmin.
    replace (lo + (j - lo))%nat with j in Hmin by lia.
    apply Hmin. lia.
  - intros (Hlo & Hp & Hmin).
    assert (Hs : scanForward c (skipn lo src) = Some (p - lo)%nat).
    { apply scanForward_first. rewrite nth_error_skipn.
      replace (lo + (p - lo))%nat with p by lia.
      split; [exact Hp | ].
      intros j Hj. rewrite nth_error_skipn. apply Hmin. lia. }
    rewrite Hs. f_equal. lia.
Qed.

Lemma bracketScan_separated (src : Text) (BPVec : list (nat * nat)) :
  forall lo,
    bracketScan src lo BPVec ->
    separated lo BPVec /\
    (nth_error src lo = Some "]"%char -> separated (S lo) BPVec).
Proof.
  induction BPVec as [ | [p q] rest IH]; intros lo H; simpl in *.
  - split; [exact I | intros _; exact I].
  - destruct H as ((Hlo & Hp & _) & (Hpq & Hq & _) & Hrest).
    assert (Hlt : (p < q)%nat).
    { destruct (Nat.eq_dec p q) as [-> | Hne]; [ | lia].
      rewrite Hp in Hq. discriminate Hq. }
    destruct (IH q Hrest) as [_ Hnext]. specialize (Hnext Hq).
    split.
    + split; [lia | exact Hnext].
    + intros Hclose. split; [ | exact Hnext].
      split; [ | exact Hlt].
      destruct (Nat.eq_dec lo p) as [-> | Hne]; [ | lia].
      rewrite Hp in Hclose. discriminate Hclose.
Qed.

(** X10: [getBracketLocPairs] returns a vector exactly when that vector
    holds as many pairs as dimensions asked for and is what a left-to-right
    scan finds: each opening bracket is the first one from where the scan
    stands, each closing bracket the first one after its opening bracket.
    The pairs it returns follow one another without overlap. *)
Theorem brackets_found_by_scan :
  forall (src : Text) (Dim StartLoc : nat) (BPVec : list (nat * nat)),
    (getBracketLocPairs src StartLoc Dim = Ok BPVec <->
     length BPVec = Dim /\ bracketScan src StartLoc BPVec) /\
    (getBracketLocPairs src StartLoc Dim = Ok BPVec ->
     separated StartLoc BPVec).
Proof.
  intros src Dim.
  assert (Hiff : forall StartLoc BPVec,
             getBracketLocPairs src StartLoc Dim = Ok BPVec <->
             length BPVec = Dim /\ bracketScan src StartLoc BPVec).
  { induction Dim as [ | d IH]; intros StartLoc BPVec;
      cbn [getBracketLocPairs].
    - split.
      + intros H. injection H as <-. split; [reflexivity | exact I].
      + intros [Hlen _]. destruct BPVec; [reflexivity | discriminate Hlen].
    - split.
      + intros H. inv_bind H. inv_bind H. inv_bind H. injection H as <-.
        apply getLocationUntil_first in Ha, Ha0. apply IH in Ha1.
        destruct Ha1 as [Hlen Hscan].
        split; [simpl; congruence | ].
        cbn [bracketScan fst snd].
        split; [exact Ha | split; [exact Ha0 | exact Hscan]].
      + intros [Hlen Hscan].
        destruct BPVec as [ | [p q] rest]; [discriminate Hlen | ].
        simpl in Hscan. destruct Hscan as (Hp & Hq & Hrest).
        apply getLocationUntil_first in Hp, Hq.
        rewrite Hp. cbn [bind]. rewrite Hq. cbn [bind].
        assert (Hr : getBracketLocPairs src q d = Ok rest).
        { apply IH. split; [ | exact Hrest]. simpl in Hlen. congruence. }
        rewrite Hr. reflexivity. }
  intros StartLoc BPVec. split; [apply Hiff | ].
  intros H. apply Hiff in H. destruct H as [_ Hscan].
  apply (bracketScan_separated src BPVec StartLoc Hscan).
Qed.

Lemma brackets_found_by_scan_witness :
  (length [(5, 7); (8, 10); (11, 13)]%nat = 3%nat /\
   bracketScan src234 4 [(5, 7); (8, 10); (11, 13)]%nat) /\
  separated 4 [(5, 7); (8, 10); (11, 13)]%nat.
Proof.
  split.
  - apply (brackets_found_by_scan src234 3 4 [(5, 7); (8, 10); (11, 13)]%nat).
    reflexivity.
  - apply (brackets_found_by_scan src234 3 4 [(5, 7); (8, 10); (11, 13)]%nat).
    reflexivity.
Defined.

(** ** When a declaration rewrite completes *)

(** X11: a declaration rewrite completes exactly when the type has at
    least two array layers, a bracket pair is located for each layer, the
    last layer is fixed and the second-to-last is fixed or incomplete.  It
    then asks the rewriter for exactly one removal, followed by one
    replacement, by the decimal product of the two extents, when the
    second-to-last layer is fixed and by nothing when it is incomplete. *)
Theorem declaration_rewrite_completes_iff :
  forall (src : Text) (VD : VarDecl) (st : Pass),
    let layers := arrayLayers (getType VD) in
    let LastTy := nth 0 (rev layers) OtherTy in
    let SecTy := nth 1 (rev layers) OtherTy in
    ((exists st', rewriteOneVarDecl src VD st = Ok st') <->
     (2 <= length layers)%nat /\
     (exists BPVec,
        getBracketLocPairs src (getLocation VD) (length layers) = Ok BPVec) /\
     isConstantArrayType LastTy = true /\
     isIncompleteArrayType SecTy || isConstantArrayType SecTy = true) /\
    (forall st',
       rewriteOneVarDecl src VD st = Ok st' ->
       exists p q rest,
         TheRewriter st' = TheRewriter st ++ RemoveText p q :: rest /\
         (isIncompleteArrayType SecTy = true -> rest = []) /\
         (isIncompleteArrayType SecTy = false ->
          exists b e,
            rest = [ReplaceText b e
                      (decimal (MachineInt.to_unsigned
                                  (getConstArraySize LastTy *
                                   getConstArraySize SecTy)))])).
Proof.
  intros src VD st layers LastTy SecTy. split; [split | ].
  - intros [st' H].
    unfold rewriteOneVarDecl, getArrayDimensionAndTypes in H.
    inv_bind H. inv_bind H. inv_bind H. inv_bind H.
    fold layers in Ha0. fold layers LastTy in Ha2. fold layers SecTy in H.
    pose proof (getBracketLocPairs_length _ _ _ _ Ha0) as Hlen.
    unfold TransAssert in Ha1, Ha2.
    destruct (1 <? length a0)%nat eqn:Hdim; [ | discriminate Ha1].
    apply Nat.ltb_lt in Hdim.
    destruct (isConstantArrayType LastTy) eqn:Hlast; [ | discriminate Ha2].
    split; [lia | ]. split; [exists a0; exact Ha0 | ].
    split; [reflexivity | ].
    destruct (isIncompleteArrayType SecTy); [reflexivity | ].
    simpl in H |- *. inv_bind H. unfold TransAssert in Ha3.
    destruct (isConstantArrayType SecTy); [reflexivity | discriminate Ha3].
  - intros (Hdim & [BPVec HBP] & Hlast & Hsec).
    unfold rewriteOneVarDecl, getArrayDimensionAndTypes.
    fold layers.
    rewrite arrayLayers_isArrayType
      by (fold layers; destruct layers; simpl in Hdim; [lia | discriminate]).
    cbn [TransAssert bind]. rewrite HBP. cbn [bind].
    pose proof (getBracketLocPairs_length _ _ _ _ HBP) as Hlen.
    replace (1 <? length BPVec)%nat with true
      by (symmetry; apply Nat.ltb_lt; lia).
    cbn [TransAssert bind]. fold LastTy SecTy. rewrite Hlast.
    cbn [TransAssert bind].
    destruct (isIncompleteArrayType SecTy); simpl in Hsec |- *.
    + eexists. reflexivity.
    + rewrite Hsec. cbn [TransAssert bind]. eexists. reflexivity.
  - intros st' H.
    unfold rewriteOneVarDecl, getArrayDimensionAndTypes in H.
    inv_bind H. inv_bind H. inv_bind H. inv_bind H.
    fold layers SecTy LastTy in H.
    destruct (isIncompleteArrayType SecTy); simpl in H.
    + injection H as <-. do 3 eexists.
      split; [reflexivity | ].
      split; [reflexivity | discriminate].
    + inv_bind H. injection H as <-. do 3 eexists.
      split; [simpl; rewrite <- app_assoc; reflexivity | ].
      split; [discriminate | ].
      intros _. do 2 eexists. reflexivity.
Qed.

Lemma declaration_rewrite_completes_iff_witness :
  (exists st',
     rewriteOneVarDecl src234 a234 (initialPass 0) = Ok st') /\
  (exists p q rest,
     TheRewriter
       (mkPass 0 [] None 3 [RemoveText 11 13; ReplaceText 9 9 (txt "12")]
               TransSuccess) =
     TheRewriter (initialPass 0) ++ RemoveText p q :: rest /\
     (isIncompleteArrayType
        (nth 1 (rev (arrayLayers (getType a234))) OtherTy) = true ->
      rest = []) /\
     (isIncompleteArrayType
        (nth 1 (rev (arrayLayers (getType a234))) OtherTy) = false ->
      exists b e,
        rest = [ReplaceText b e
                  (decimal
                     (MachineInt.to_unsigned
                        (getConstArraySize
                           (nth 0 (rev (arrayLayers (getType a234))) OtherTy) *
                         getConstArraySize
                           (nth 1 (rev (arrayLayers (getType a234))) OtherTy))))])).
Proof.
  split.
  - apply (declaration_rewrite_completes_iff src234 a234 (initialPass 0)).
    split; [simpl; lia | ]. split; [eexists; vm_compute; reflexivity | ].
    split; reflexivity.
  - apply (declaration_rewrite_completes_iff src234 a234 (initialPass 0)).
    vm_compute. reflexivity.
Defined.

Lemma getBracketLocPairs_failure (src : Text) (Dim : nat) :
  forall StartLoc msg,
    getBracketLocPairs src StartLoc Dim = AssertFail msg ->
    msg = "bracket not found"%string.
Proof.
  induction Dim as [ | d IH]; intros StartLoc msg H;
    cbn [getBracketLocPairs] in H; [discriminate H | ].
  unfold getLocationUntil in H at 1.
  destruct (scanForward "[" (skipn StartLoc src)) as [o1 | ];
    cbn [bind] in H; [ | congruence].
  unfold getLocationUntil in H at 1.
  destruct (scanForward "]" (skipn (StartLoc + o1) src)) as [o2 | ];
    cbn [bind] in H; [ | congruence].
  destruct (getBracketLocPairs src (StartLoc + o1 + o2) d) as [l | m] eqn:Hr;
    cbn [bind] in H; [discriminate H | ].
  injection H as <-. eapply IH. exact Hr.
Qed.

(** X12: on a declaration the collector admits, the declaration rewrite
    never stops at its assertion on the array type nor at its assertion on
    the number of bracket pairs. *)
Theorem admitted_passes_first_assertions :
  forall (src : Text) (VD : VarDecl) (st : Pass) (msg : string),
    admitted VD = true ->
    rewriteOneVarDecl src VD st = AssertFail msg ->
    msg <> "Invalid ArrayType!"%string /\
    msg <> "Invalid Bracket Pairs!"%string.
Proof.
  intros src VD st msg Hadm H.
  assert (Hmsg : msg = "bracket not found"%string \/
                 msg = "Non ConstantArrayType!"%string).
  { unfold admitted in Hadm.
    apply andb_prop in Hadm. destruct Hadm as [Hadm _].
    apply andb_prop in Hadm. destruct Hadm as [Harr Hdim].
    apply Nat.ltb_lt in Hdim. unfold getArrayDimension in Hdim.
    unfold rewriteOneVarDecl, getArrayDimensionAndTypes in H.
    rewrite Harr in H. cbn [TransAssert bind] in H.
    destruct (getBracketLocPairs src (getLocation VD)
                (length (arrayLayers (getType VD)))) as [BPVec | m] eqn:HBP;
      cbn [bind] in H.
    - pose proof (getBracketLocPairs_length _ _ _ _ HBP) as Hlen.
      replace (1 <? length BPVec)%nat with true in H
        by (symmetry; apply Nat.ltb_lt; lia).
      cbn [TransAssert bind] in H.
      destruct (isConstantArrayType
                  (nth 0 (rev (arrayLayers (getType VD))) OtherTy));
        cbn [TransAssert bind] in H; [ | right; congruence].
      destruct (isIncompleteArrayType
                  (nth 1 (rev (arrayLayers (getType VD))) OtherTy));
        simpl in H; [discriminate H | ].
      destruct (isConstantArrayType
                  (nth 1 (rev (arrayLayers (getType VD))) OtherTy));
        cbn [TransAssert bind] in H; [discriminate H | right; congruence].
    - injection H as <-. left. eapply getBracketLocPairs_failure. exact HBP. }
  destruct Hmsg as [-> | ->]; split; discriminate.
Qed.

Lemma admitted_passes_first_assertions_witness :
  "Non ConstantArrayType!"%string <> "Invalid ArrayType!"%string /\
  "Non ConstantArrayType!"%string <> "Invalid Bracket Pairs!"%string.
Proof.
  apply (admitted_passes_first_assertions srcVla aVla
           (mkPass 1 [0%nat] (Some 0%nat) 0 [] TransSuccess)).
  - reflexivity.
  - reflexivity.
Defined.

(** ** Literal indices an [int] cannot hold *)

(** X13: when both trailing index expressions are literals and the value
    of one of them does not fit an [int], the subscript rewrite stops at
    the assertion "Non-integer value!" and leaves no state behind. *)
Theorem oversized_literal_index_stops :
  forall (src : Text) (LastE SecE : Expr) (rest : list Expr) (st : Pass)
         (l s : Z),
    isIntegerExpr LastE = true -> isIntegerExpr SecE = true ->
    bracketed src LastE ->
    EvaluateAsInt LastE = Some l -> EvaluateAsInt SecE = Some s ->
    MachineInt.fits_int l && MachineInt.fits_int s = false ->
    rewriteSubscriptExpr src (LastE :: SecE :: rest) st =
    AssertFail "Non-integer value!".
Proof.
  intros src LastE SecE rest st l s HL HS Hbr El Es Hfit.
  destruct (removeArraySubscriptExpr_ok src LastE st Hbr) as (p & q & Hrm).
  unfold rewriteSubscriptExpr. rewrite Hrm. cbn [bind].
  rewrite HL, HS. cbn [andb].
  unfold getIndexAsInteger. rewrite El, Es.
  destruct (MachineInt.fits_int l); cbn [bind]; [ | reflexivity].
  simpl in Hfit. rewrite Hfit. reflexivity.
Qed.

Lemma oversized_literal_index_stops_witness :
  rewriteSubscriptExpr src234
    [IntegerLiteral (41, 41)%nat 4294967295; IntegerLiteral (38, 38)%nat 2]
    (mkPass 1 [0%nat] (Some 0%nat) 3 [] TransSuccess) =
  AssertFail "Non-integer value!".
Proof.
  apply (oversized_literal_index_stops src234
           (IntegerLiteral (41, 41)%nat 4294967295)
           (IntegerLiteral (38, 38)%nat 2) []
           (mkPass 1 [0%nat] (Some 0%nat) 3 [] TransSuccess)
           4294967295 2).
  - reflexivity.
  - reflexivity.
  - split; simpl; tauto.
  - reflexivity.
  - reflexivity.
  - reflexivity.
Defined.

(** ** Where the edits of a declaration rewrite fall *)

Lemma getBracketLocPairs_scan (src : Text) (Dim : nat) :
  forall StartLoc BPVec,
    getBracketLocPairs src StartLoc Dim = Ok BPVec ->
    bracketScan src StartLoc BPVec.
Proof.
  induction Dim as [ | d IH]; intros StartLoc BPVec H;
    cbn [getBracketLocPairs] in H.
  - injection H as <-. exact I.
  - inv_bind H. inv_bind H. inv_bind H. injection H as <-.
    apply getLocationUntil_first in Ha, Ha0. apply IH in Ha1.
    cbn [bracketScan fst snd].
    split; [exact Ha | split; [exact Ha0 | exact Ha1]].
Qed.

Lemma last_two_decompose {A : Type} (l : list A) :
  (2 <= length l)%nat -> exists front a b, l = front ++ [a; b].
Proof.
  intros Hlen. rewrite <- (rev_involutive l) in *.
  rewrite length_rev in Hlen.
  destruct (rev l) as [ | b [ | a r]]; simpl in Hlen; try lia.
  exists (rev r), a, b. simpl. rewrite <- app_assoc. reflexivity.
Qed.

Lemma bracketScan_last_two (src : Text) (front : list (nat * nat)) :
  forall lo1 lo2 a b,
    bracketScan src lo1 (front ++ [a; b]) ->
    separated lo2 (front ++ [a; b]) ->
    nth_error src (fst a) = Some "["%char /\
    nth_error src (snd a) = Some "]"%char /\
    nth_error src (fst b) = Some "["%char /\
    nth_error src (snd b) = Some "]"%char /\
    (lo2 <= fst a)%nat /\ (fst a < snd a)%nat /\
    (snd a < fst b)%nat /\ (fst b < snd b)%nat.
Proof.
  induction front as [ | x front IH]; intros lo1 lo2 a b Hscan Hsep.
  - simpl in Hscan, Hsep.
    destruct Hscan as ((_ & Ha1 & _) & (_ & Ha2 & _) &
                       (_ & Hb1 & _) & (_ & Hb2 & _) & _).
    destruct Hsep as (Hx & Hy & _).
    repeat split; try assumption; lia.
  - simpl in Hscan, Hsep.
    destruct Hscan as (_ & _ & Hscan). destruct Hsep as (Hx & Hsep).
    destruct (IH _ _ a b Hscan Hsep)
      as (H1 & H2 & H3 & H4 & H5 & H6 & H7 & H8).
    repeat split; try assumption; lia.
Qed.

(** X14: the edits of a declaration rewrite that completes.  The removal
    runs from an opening bracket to a closing bracket after it.  A
    replacement, when there is one, lies strictly between an opening and a
    closing bracket and ends before the removal starts, so the two edits
    never overlap; and both lie at or after the location of the declared
    name. *)
Theorem declaration_edits_disjoint :
  forall (src : Text) (VD : VarDecl) (st st' : Pass),
    rewriteOneVarDecl src VD st = Ok st' ->
    exists p q rest,
      TheRewriter st' = TheRewriter st ++ RemoveText p q :: rest /\
      nth_error src p = Some "["%char /\
      nth_error src q = Some "]"%char /\
      (p < q)%nat /\
      forall b e NewStr,
        In (ReplaceText b e NewStr) rest ->
        (getLocation VD < b)%nat /\
        nth_error src (b - 1) = Some "["%char /\
        nth_error src (S e) = Some "]"%char /\
        (S e < p)%nat.
Proof.
  intros src VD st st' H.
  unfold rewriteOneVarDecl, getArrayDimensionAndTypes in H.
  inv_bind H. inv_bind H. inv_bind H. inv_bind H.
  unfold TransAssert in Ha1.
  destruct (1 <? length a0)%nat eqn:Hdim; [ | discriminate Ha1].
  apply Nat.ltb_lt in Hdim.
  pose proof (getBracketLocPairs_scan _ _ _ _ Ha0) as Hscan.
  destruct (bracketScan_separated _ _ _ Hscan) as [Hsep _].
  destruct (last_two_decompose a0) as (front & [p1 q1] & [p2 q2] & ->);
    [lia | ].
  destruct (bracketScan_last_two _ _ _ _ _ _ Hscan Hsep)
    as (H1 & H2 & H3 & H4 & H5 & H6 & H7 & H8).
  cbn [fst snd] in *.
  rewrite rev_app_distr in H. cbn [rev app nth fst snd] in H.
  destruct (negb (isIncompleteArrayType
                    (nth 1 (rev (arrayLayers (getType VD))) OtherTy))).
  - inv_bind H. injection H as <-.
    exists p2, q2. eexists.
    split; [simpl; rewrite <- app_assoc; reflexivity | ].
    repeat split; try assumption;
      destruct H as [H | []]; injection H as <- <- _.
    + lia.
    + replace (p1 + 1 - 1)%nat with p1 by lia. exact H1.
    + replace (S (q1 - 1)) with q1 by lia. exact H2.
    + lia.
  - injection H as <-.
    exists p2, q2, []. split; [reflexivity | ].
    repeat split; try assumption; destruct H.
Qed.

Lemma declaration_edits_disjoint_witness :
  exists p q rest,
    TheRewriter
      (mkPass 0 [] None 3 [RemoveText 11 13; ReplaceText 9 9 (txt "12")]
              TransSuccess) =
    TheRewriter (initialPass 0) ++ RemoveText p q :: rest /\
    nth_error src234 p = Some "["%char /\
    nth_error src234 q = Some "]"%char /\
    (p < q)%nat /\
    forall b e NewStr,
      In (ReplaceText b e NewStr) rest ->
      (getLocation a234 < b)%nat /\
      nth_error src234 (b - 1) = Some "["%char /\
      nth_error src234 (S e) = Some "]"%char /\
      (S e < p)%nat.
Proof.
  apply (declaration_edits_disjoint src234 a234 (initialPass 0)).
  vm_compute. reflexivity.
Defined.

(** ** The cached extent *)

(** X15: only a declaration rewrite writes the cached extent.  A walk
    over a translation unit that holds no declaration of the target leaves
    [ArraySz] as it was, however many subscript chains it rewrites on the
    way. *)
Theorem cache_written_by_declarations_only :
  forall (src : Text) (TU : list Node) (st st' : Pass),
    (forall VD, In (DeclNode VD) TU ->
                touchesTarget st (DeclNode VD) = false) ->
    TraverseDecl src TU st = Ok st' ->
    ArraySz st' = ArraySz st.
Proof.
  intros src TU. induction TU as [ | [VD | E] rest IH]; intros st st' Hno H;
    cbn [TraverseDecl] in H.
  - injection H as <-. reflexivity.
  - assert (Hvd : VisitVarDecl src VD st = Ok st).
    { specialize (Hno VD (or_introl eq_refl)). cbn [touchesTarget] in Hno.
      unfold VisitVarDecl. destruct (TheVarDecl st); [rewrite Hno | ];
        reflexivity. }
    rewrite Hvd in H. cbn [bind] in H.
    apply IH; [ | exact H].
    intros VD' Hin. apply Hno. right. exact Hin.
  - inv_bind H. apply TraverseStmt_frame in Ha. destruct Ha as [Hsz Htgt].
    rewrite <- Hsz. apply IH; [ | exact H].
    intros VD' Hin. specialize (Hno VD' (or_intror Hin)).
    cbn [touchesTarget] in Hno |- *. rewrite Htgt. exact Hno.
Qed.

Lemma cache_written_by_declarations_only_witness :
  ArraySz
    (mkPass 1 [0%nat] (Some 0%nat) 5
            [RemoveText 40 42; ReplaceText 38 38 (txt "13")] TransSuccess) =
  ArraySz (mkPass 1 [0%nat] (Some 0%nat) 5 [] TransSuccess).
Proof.
  apply (cache_written_by_declarations_only src234
           [DeclNode (mkVarDecl 1 int34 0); ExprNode use234]).
  - intros VD [H | [H | []]]; [ | discriminate H].
    injection H as <-. reflexivity.
  - vm_compute. reflexivity.
Defined.
